(** * The linearizability verifier of omnipaxos-kv: model, history pipeline, report

    Shallow embedding of the Go package [verifier] (the Porcupine model of the
    key-value store, the history loader and merger, the checking orchestrator)
    and of the command [cmd/verifier], with the properties its specification
    states about them. *)

From Stdlib Require Import ZArith Ascii String List Permutation Sorted Lia Bool.
From stdpp Require Import base option gmap strings list fin_maps sorting pretty.

Open Scope string_scope.
Open Scope list_scope.

(** ** Values of type [interface{}] produced by [encoding/json]

    [json.Unmarshal] fills an [interface{}] with [nil], a [bool], a
    [float64], a [string], a [[]interface{}] or a [map[string]interface{}].
    A number is kept as the literal it was read from: the model never looks
    inside one, and the loader needs the literal to decide whether it fits an
    [int64] field. *)
#[local] Unset Elimination Schemes.
Inductive any : Type :=
  | Nil
  | Bool (b : bool)
  | Number (lit : string)
  | Str (s : string)
  | Array (items : list any)
  | Object (fields : gmap string any).
#[local] Set Elimination Schemes.

Abbreviation object := (gmap string any).

(** [m[k]] on a [map[string]interface{}]: a missing key reads as the zero
    value of [interface{}], which is [nil]. *)
Definition index (m : object) (k : string) : any :=
  default Nil (m !! k).

(** The type assertion [v.(string)] in its comma-ok form. *)
Definition as_string (v : any) : option string :=
  match v with
  | Str s => Some s
  | _ => None
  end.

(** [v == nil] on an [interface{}]. *)
Definition is_nil (v : any) : bool :=
  match v with
  | Nil => true
  | _ => false
  end.

(** ** What the engine hands to the model

    Porcupine passes states, inputs and outputs as [interface{}]. Three
    dynamic types occur: the state [map[string]string] (never nil: [Init]
    makes it), a nil [map[string]interface{}] (a record whose [input] or
    [output] was absent or [null]), and the values of [any]. *)
Inductive iface : Type :=
  | IState (st : gmap string string)
  | INilMap
  | IJson (v : any).

(** A field of static type [map[string]interface{}]: [None] is the nil map. *)
Definition to_iface (m : option object) : iface :=
  match m with
  | None => INilMap
  | Some fields => IJson (Object fields)
  end.

(** [x.(map[string]string)] and [x.(map[string]interface{})]: the plain
    assertions of the source panic on another dynamic type, which is [None]
    here. Reading a nil map gives zero values, as reading the empty map does. *)
Definition as_state (x : iface) : option (gmap string string) :=
  match x with
  | IState st => Some st
  | _ => None
  end.

Definition as_map (x : iface) : option object :=
  match x with
  | INilMap => Some ∅
  | IJson (Object fields) => Some fields
  | _ => None
  end.

Module KV.

Abbreviation state := (gmap string string).

(** [porcupine.Operation]. *)
Record Operation : Type := {
  ClientId : Z;
  Input : iface;
  Call : Z;
  Output : iface;
  Return : Z
}.

(** [handlePut]. The map is updated in place and the same map is returned:
    the pair is the verdict and the content of that map after the call. *)
Definition handlePut (st : state) (inp : object) : bool * state :=
  match as_string (index inp "key"), as_string (index inp "value") with
  | Some key, Some value => (true, <[key := value]> st)
  | _, _ => (false, st)
  end.

(** [handleGet]. *)
Definition handleGet (st : state) (inp out : object) : bool * state :=
  match as_string (index inp "key") with
  | None => (false, st)
  | Some key =>
      let expected := st !! key in
      match as_string (index out "status") with
      | None => (false, st)
      | Some outStatus =>
          if negb (String.eqb outStatus "ok") then (false, st)
          else
            let outValue := index out "value" in
            match expected with
            | None => (is_nil outValue, st)
            | Some expectedValue =>
                if is_nil outValue then (false, st)
                else
                  match as_string outValue with
                  | Some outValueStr => (String.eqb outValueStr expectedValue, st)
                  | None => (false, st)
                  end
            end
      end
  end.

(** [handleDelete]. *)
Definition handleDelete (st : state) (inp : object) : bool * state :=
  match as_string (index inp "key") with
  | Some key => (true, delete key st)
  | None => (false, st)
  end.

(** The [Init] closure of [createKVModel]. *)
Definition Init : iface := IState ∅.

(** The [Step] closure of [createKVModel]: three assertions, then the switch
    on the type tag. The handlers' result is returned as an [interface{}]. *)
Definition Step (state input output : iface) : option (bool * iface) :=
  st ← as_state state;
  inp ← as_map input;
  out ← as_map output;
  Some (prod_map id IState
    match as_string (index inp "type") with
    | None => (false, st)
    | Some opType =>
        if String.eqb opType "Put" then handlePut st inp
        else if String.eqb opType "Get" then handleGet st inp out
        else if String.eqb opType "Delete" then handleDelete st inp
        else (false, st)
    end).

(** The body of the loop of [partitionByKey]: the key of the operation, or
    the name of the defensive group, then the append to that group. *)
Definition partition_key (inp : object) : string :=
  default "__unknown__" (as_string (index inp "key")).

Definition partition_add (partitions : gmap string (list Operation))
    (op : Operation) : option (gmap string (list Operation)) :=
  inp ← as_map (Input op);
  let key := partition_key inp in
  Some (<[key := default [] (partitions !! key) ++ [op]]> partitions).

(** The map [partitions] at the end of the first loop of [partitionByKey];
    [None] when an input is not a [map[string]interface{}]. *)
Definition partitionByKey_groups (history : list Operation)
    : option (gmap string (list Operation)) :=
  foldl (λ acc op, partitions ← acc; partition_add partitions op) (Some ∅) history.

(** [partitionByKey]. The second loop ranges over the map, in an order Go
    leaves unspecified: every order of the groups is a possible result. *)
Definition partitionByKey (history : list Operation)
    (result : list (list Operation)) : Prop :=
  ∃ partitions, partitionByKey_groups history = Some partitions
    ∧ result ≡ₚ (map_to_list partitions).*2.

(** [porcupine.Model], without the two description functions, which only
    feed the visualisation. *)
Record Model : Type := {
  model_Init : iface;
  model_Step : iface → iface → iface → option (bool * iface);
  model_Partition : list Operation → list (list Operation) → Prop
}.

(** [createKVModel]. *)
Definition createKVModel : Model :=
  {| model_Init := Init; model_Step := Step; model_Partition := partitionByKey |}.

End KV.

(** ** The model on a store of maps

    A Go map is a reference: the handlers write into the map they are given
    and return that same map, so the engine's older handles on a state see
    the write. Here the states live in a store and are named by their
    location; [KV.Step] above gives the content of the one map a call works
    on, before and after. *)
Module Shared.

Abbreviation loc := positive.
Abbreviation store := (gmap positive (gmap string string)).

Definition content (σ : store) (st : loc) : gmap string string := default ∅ (σ !! st).

(** [handlePut]: [st[key] = value], then [return true, st]. *)
Definition handlePut (σ : store) (st : loc) (inp : object) : bool * loc * store :=
  match as_string (index inp "key"), as_string (index inp "value") with
  | Some key, Some value => (true, st, <[st := <[key := value]> (content σ st)]> σ)
  | _, _ => (false, st, σ)
  end.

(** [handleGet]: the map is only read. *)
Definition handleGet (σ : store) (st : loc) (inp out : object) : bool * loc * store :=
  ((KV.handleGet (content σ st) inp out).1, st, σ).

(** [handleDelete]: [delete(st, key)], then [return true, st]. *)
Definition handleDelete (σ : store) (st : loc) (inp : object) : bool * loc * store :=
  match as_string (index inp "key") with
  | Some key => (true, st, <[st := delete key (content σ st)]> σ)
  | None => (false, st, σ)
  end.

(** [Init]: a fresh, empty map. *)
Definition Init (σ : store) : loc * store :=
  let st := fresh (dom σ) in (st, <[st := ∅]> σ).

(** [Step], for a state the engine holds. *)
Definition Step (σ : store) (st : loc) (input output : iface) : option (bool * loc * store) :=
  inp ← as_map input;
  out ← as_map output;
  Some
    match as_string (index inp "type") with
    | None => (false, st, σ)
    | Some opType =>
        if String.eqb opType "Put" then handlePut σ st inp
        else if String.eqb opType "Get" then handleGet σ st inp out
        else if String.eqb opType "Delete" then handleDelete σ st inp
        else (false, st, σ)
    end.

End Shared.

(** ** JSON documents

    A document as the scanner of [encoding/json] reads it: object members in
    the order of the text, duplicates included, strings unquoted, numbers as
    their literals. *)
#[local] Unset Elimination Schemes.
Inductive json : Type :=
  | JNull
  | JBool (b : bool)
  | JNumber (lit : string)
  | JString (s : string)
  | JArray (items : list json)
  | JObject (members : list (string * json)).
#[local] Set Elimination Schemes.

Module Strconv.

Definition digit (c : ascii) : option Z :=
  let n := Z.of_N (N_of_ascii c) in
  if (48 <=? n)%Z && (n <=? 57)%Z then Some (n - 48)%Z else None.

(** A run of decimal digits: its value, its length and what follows it. *)
Fixpoint digits (s : string) (acc : Z) (len : Z) : Z * Z * string :=
  match s with
  | String c rest =>
      match digit c with
      | Some d => digits rest (10 * acc + d)%Z (len + 1)%Z
      | None => (acc, len, s)
      end
  | EmptyString => (acc, len, s)
  end.

Definition signed (s : string) : bool * string :=
  match s with
  | String "-" rest => (true, rest)
  | _ => (false, s)
  end.

(** [strconv.ParseInt(s, 10, 64)] on a JSON number literal: an optional
    minus sign and digits only, within the range of [int64]. *)
Definition ParseInt64 (s : string) : option Z :=
  let '(neg, body) := signed s in
  match digits body 0 0 with
  | (n, len, EmptyString) =>
      let v := if neg then (- n)%Z else n in
      if (0 <? len)%Z && (- 2 ^ 63 <=? v)%Z && (v <? 2 ^ 63)%Z then Some v else None
  | _ => None
  end.

(** The decimal reading of a JSON number literal: mantissa and power of ten. *)
Definition decimal (s : string) : option (Z * Z) :=
  let '(_, body) := signed s in
  let '(whole, wlen, rest) := digits body 0 0 in
  if (wlen =? 0)%Z then None else
  let '(mant, flen, rest) :=
    match rest with
    | String "." rest' => digits rest' whole 0
    | _ => (whole, 0%Z, rest)
    end in
  match rest with
  | EmptyString => Some (mant, (- flen)%Z)
  | String c rest' =>
      if Ascii.eqb c "e" || Ascii.eqb c "E" then
        let '(eneg, ebody) :=
          match rest' with
          | String "+" r => (false, r)
          | String "-" r => (true, r)
          | _ => (false, rest')
          end in
        match digits ebody 0 0 with
        | (e, elen, EmptyString) =>
            if (elen =? 0)%Z then None
            else Some (mant, ((if eneg then - e else e) - flen)%Z)
        | _ => None
        end
      else None
  end.

(** Whether [strconv.ParseFloat(s, 64)] accepts the literal: it reports a
    range error when the number rounds to an infinity, that is from half a
    unit in the last place above the largest [float64] on. A number too
    small to be told from zero is accepted. *)
Definition fits_float64 (s : string) : bool :=
  match decimal s with
  | None => false
  | Some (mant, e) =>
      let bound := (2 ^ 1024 - 2 ^ 970)%Z in
      if (mant =? 0)%Z then true
      else if (0 <=? e)%Z then (mant * 10 ^ e <? bound)%Z
      else (mant <? bound * 10 ^ (- e))%Z
  end.

End Strconv.

Module Json.

(** Decoding a document into an [interface{}]; [None] is the type error that
    [encoding/json] reports for a number outside [float64]. In an object a
    later member with the same name replaces the earlier one. *)
Fixpoint to_any (j : json) : option any :=
  match j with
  | JNull => Some Nil
  | JBool b => Some (Bool b)
  | JNumber lit => if Strconv.fits_float64 lit then Some (Number lit) else None
  | JString s => Some (Str s)
  | JArray items => Array <$> mapM to_any items
  | JObject members =>
      Object <$>
        foldl (λ acc member,
                 m ← acc;
                 match member with
                 | (name, j') => v ← to_any j'; Some (<[name := v]> m)
                 end)
              (Some ∅) members
  end.

(** Decoding an object into a [map[string]interface{}] that already holds
    [m]: the existing map is kept and the members are stored into it. *)
Definition into_map (m : object) (members : list (string * json)) : option object :=
  foldl (λ acc member, m' ← acc; v ← to_any member.2; Some (<[member.1 := v]> m'))
        (Some m) members.

Definition by_name (a b : string * json) : Prop := String.leb a.1 b.1 = true.

#[local] Instance by_name_dec a b : Decision (by_name a b).
Proof. unfold by_name. apply _. Defined.

(** Encoding a value, as [json.Marshal] writes it: the members of a map in
    the order of their names. A [float64] is written by its literal. *)
Fixpoint of_any (v : any) : json :=
  match v with
  | Nil => JNull
  | Bool b => JBool b
  | Number lit => JNumber lit
  | Str s => JString s
  | Array items => JArray (map of_any items)
  | Object fields => JObject (merge_sort by_name (map_to_list (of_any <$> fields)))
  end.

End Json.

(** ** Errors, files and the run's surroundings *)

(** The errors of the package: those of [os] and [encoding/json], whose text
    belongs to the platform, and those wrapped by [fmt.Errorf]. *)
Inductive error : Type :=
  | ReadFileError (path : string)
  | WriteFileError (path : string)
  | CreateError (path : string)
  | UnmarshalError
  | VisualizeError
  | ListenError
  | Errorf (prefix : string) (cause : error).

Inductive result (A : Type) : Type :=
  | Ok (a : A)
  | Err (e : error).
Arguments Ok {A} a.
Arguments Err {A} e.

(** The content of a file: bytes that are not a JSON text, or the text of a
    document. *)
Inductive file : Type :=
  | Garbled
  | Json (doc : json).

(** The colour constants of the package, whose declarations (and that of
    [Colorize]) are not part of the sources at hand: a coloured piece of text
    is kept as such. *)
Inductive color : Type :=
  | ColorCyan | ColorYellow | ColorGreen | ColorRed | ColorBlue | ColorBold.

#[local] Unset Elimination Schemes.
Inductive segment : Type :=
  | Plain (s : string)
  | ErrorText (e : error)
  | FlagDefaults
  | Colorize (inner : list segment) (c : list color).
#[local] Set Elimination Schemes.

Abbreviation text := (list segment).

(** ** [path/filepath] and [strings], for slash-separated paths *)
Module Filepath.

Definition is_slash (c : ascii) : bool := Ascii.eqb c "/".

(** The elements between the slashes, empty ones included. *)
Fixpoint elements (path : string) : list string :=
  match path with
  | EmptyString => [EmptyString]
  | String c rest =>
      match elements rest with
      | e :: es => if is_slash c then EmptyString :: e :: es else String c e :: es
      | [] => [String c EmptyString]
      end
  end.

Definition rooted (path : string) : bool :=
  match path with
  | String c _ => is_slash c
  | EmptyString => false
  end.

(** One element of [Clean]'s loop, on the elements kept so far (last first). *)
Definition clean_step (root : bool) (kept : list string) (e : string) : list string :=
  if String.eqb e EmptyString || String.eqb e "." then kept
  else if String.eqb e ".." then
    match kept with
    | top :: below => if String.eqb top ".." then e :: kept else below
    | [] => if root then kept else [e]
    end
  else e :: kept.

Fixpoint join_slash (es : list string) : string :=
  match es with
  | [] => EmptyString
  | [e] => e
  | e :: es' => e +:+ "/" +:+ join_slash es'
  end.

(** [filepath.Clean]. *)
Definition Clean (path : string) : string :=
  if String.eqb path EmptyString then "."
  else
    let kept := foldl (clean_step (rooted path)) [] (elements path) in
    let body := join_slash (rev kept) in
    if rooted path then "/" +:+ body
    else if String.eqb body EmptyString then "." else body.

(** [path[:i+1]] for the last slash [i] of [path]. *)
Fixpoint up_to_last_slash (path : string) : string :=
  match path with
  | EmptyString => EmptyString
  | String c rest =>
      let p := up_to_last_slash rest in
      if negb (String.eqb p EmptyString) then String c p
      else if is_slash c then String c EmptyString
      else EmptyString
  end.

(** [filepath.Dir]. *)
Definition Dir (path : string) : string := Clean (up_to_last_slash path).

(** [filepath.Base]: the last element, trailing slashes apart. *)
Definition Base (path : string) : string :=
  if String.eqb path EmptyString then "."
  else
    match filter (λ e, e ≠ EmptyString) (rev (elements path)) with
    | e :: _ => e
    | [] => "/"
    end.

Fixpoint from_last_dot (s : string) : option string :=
  match s with
  | EmptyString => None
  | String c rest =>
      match from_last_dot rest with
      | Some e => Some e
      | None => if Ascii.eqb c "." then Some s else None
      end
  end.

(** [filepath.Ext]: from the last dot of the last element on. *)
Definition Ext (path : string) : string :=
  default EmptyString (from_last_dot (List.last (elements path) EmptyString)).

(** [filepath.Join] of two elements. *)
Definition Join (a b : string) : string :=
  if negb (String.eqb a EmptyString) then Clean (a +:+ "/" +:+ b)
  else if negb (String.eqb b EmptyString) then Clean b
  else EmptyString.

(** [strings.TrimSuffix]. *)
Definition TrimSuffix (s suffix : string) : string :=
  let n := String.length s in
  let k := String.length suffix in
  if (k <=? n)%nat && String.eqb (substring (n - k) k s) suffix
  then substring 0 (n - k) s
  else s.

End Filepath.

(** ** Porcupine, as the package uses it *)

(** [porcupine.CheckResult], a string type with three constants, and its
    rendering under the verb [%v]. *)
Inductive CheckResult : Type := Unknown | Ok_ | Illegal.

Definition CheckResult_text (r : CheckResult) : string :=
  match r with
  | Unknown => "Unknown"
  | Ok_ => "Ok"
  | Illegal => "Illegal"
  end.

(** [porcupine.LinearizationInfo], through its one accessor used here:
    for each partition, the partial linearizations found, each a list of
    operation indices. *)
Record LinearizationInfo : Type := {
  PartialLinearizations : list (list (list Z))
}.

(** What the run observes and leaves behind, in order. *)
Inductive event : Type :=
  | Stdout (t : text)
  | Stderr (t : text)
  | Checked (history : list KV.Operation) (timeout : Z)
  | Visualized (htmlPath : string)
  | Listening (port : Z) (htmlPath : string).

(** The surroundings of a run: the readable files, the paths that cannot be
    created or written, and the events so far. *)
Record world : Type := {
  files : gmap string file;
  unwritable : gset string;
  trace : list event
}.

(** The functions the package calls and does not define: [sort.Slice], the
    checking engine and its renderer ([true] when it reports no error). *)
Record Library : Type := {
  sort_Slice : ∀ A : Type, (A → A → bool) → list A → list A;
  CheckOperationsVerbose :
    KV.Model → list KV.Operation → Z → CheckResult * LinearizationInfo;
  Visualize : KV.Model → LinearizationInfo → bool
}.

(** Computations that read and change the surroundings. *)
Definition M (A : Type) : Type := world → A * world.

#[global] Instance M_ret : MRet M := λ A a w, (a, w).
#[global] Instance M_bind : MBind M := λ A B f c w, let '(a, w') := c w in f a w'.

(** The surroundings after further events. *)
Definition log (w : world) (events : list event) : world :=
  {| files := files w; unwritable := unwritable w; trace := trace w ++ events |}.

Definition emit (e : event) : M unit := λ w, (tt, log w [e]).

Definition Print (t : text) : M unit := emit (Stdout t).
Definition Eprint (t : text) : M unit := emit (Stderr t).

(** [os.ReadFile]. *)
Definition ReadFile (w : world) (path : string) : result file :=
  match files w !! path with
  | Some content => Ok content
  | None => Err (ReadFileError path)
  end.

(** [os.WriteFile] and [os.Create]: the file is replaced unless the path
    cannot be written. *)
Definition store (path : string) (content : file) (failure : error) : M (option error) :=
  λ w, if bool_decide (path ∈ unwritable w) then (Some failure, w)
       else (None, {| files := <[path := content]> (files w);
                      unwritable := unwritable w; trace := trace w |}).

Definition WriteFile (path : string) (content : file) : M (option error) :=
  store path content (WriteFileError path).

(** ** The history: [types.go] *)
Module History.

(** [Operation], a record of the history file. The two maps may be nil. *)
Record Operation : Type := {
  ClientID : Z;
  Input : option object;
  Call : Z;
  Output : option object;
  ReturnTime : Z
}.

Definition zero : Operation :=
  {| ClientID := 0; Input := None; Call := 0; Output := None; ReturnTime := 0 |}.

(** The fields of [Operation], by their [json] tags. A member name selects
    the field with that tag, or else the one equal to it up to letter case. *)
Inductive field : Type := FClientID | FInput | FCall | FOutput | FReturnTime.

Definition tag (f : field) : string :=
  match f with
  | FClientID => "client_id"
  | FInput => "input"
  | FCall => "call"
  | FOutput => "output"
  | FReturnTime => "return_time"
  end.

Definition upper (c : ascii) : ascii :=
  let n := N_of_ascii c in
  if (97 <=? n)%N && (n <=? 122)%N then ascii_of_N (n - 32) else c.

Fixpoint fold_case (s : string) : string :=
  match s with
  | EmptyString => EmptyString
  | String c rest => String (upper c) (fold_case rest)
  end.

Definition all_fields : list field := [FClientID; FInput; FCall; FOutput; FReturnTime].

Definition field_named (name : string) : option field :=
  match List.find (λ f, String.eqb (tag f) name) all_fields with
  | Some f => Some f
  | None => List.find (λ f, String.eqb (fold_case (tag f)) (fold_case name)) all_fields
  end.

(** Storing a document into an [int64] field: [null] leaves it, an integer
    literal in range sets it, anything else is a type error. *)
Definition store_int64 (current : Z) (j : json) : option Z :=
  match j with
  | JNull => Some current
  | JNumber lit => Strconv.ParseInt64 lit
  | _ => None
  end.

(** Storing a document into a [map[string]interface{}] field: [null] makes
    it nil, an object is stored into the map at hand (a new one when nil),
    anything else is a type error. *)
Definition store_map (current : option object) (j : json) : option (option object) :=
  match j with
  | JNull => Some None
  | JObject members => Some <$> Json.into_map (default ∅ current) members
  | _ => None
  end.

Definition store_member (op : Operation) (member : string * json) : option Operation :=
  match field_named member.1 with
  | None => Some op
  | Some FClientID =>
      v ← store_int64 (ClientID op) member.2;
      Some {| ClientID := v; Input := Input op; Call := Call op;
              Output := Output op; ReturnTime := ReturnTime op |}
  | Some FInput =>
      v ← store_map (Input op) member.2;
      Some {| ClientID := ClientID op; Input := v; Call := Call op;
              Output := Output op; ReturnTime := ReturnTime op |}
  | Some FCall =>
      v ← store_int64 (Call op) member.2;
      Some {| ClientID := ClientID op; Input := Input op; Call := v;
              Output := Output op; ReturnTime := ReturnTime op |}
  | Some FOutput =>
      v ← store_map (Output op) member.2;
      Some {| ClientID := ClientID op; Input := Input op; Call := Call op;
              Output := v; ReturnTime := ReturnTime op |}
  | Some FReturnTime =>
      v ← store_int64 (ReturnTime op) member.2;
      Some {| ClientID := ClientID op; Input := Input op; Call := Call op;
              Output := Output op; ReturnTime := v |}
  end.

(** Decoding one element of the array into an [Operation] that starts at
    its zero value: [null] leaves it, an object stores its members in turn. *)
Definition decode_Operation (j : json) : option Operation :=
  match j with
  | JNull => Some zero
  | JObject members => foldl (λ acc member, op ← acc; store_member op member) (Some zero) members
  | _ => None
  end.

(** [json.Unmarshal(data, &ops)] for [ops] of type [[]Operation]. *)
Definition Unmarshal (doc : json) : option (list Operation) :=
  match doc with
  | JNull => Some []
  | JArray items => mapM decode_Operation items
  | _ => None
  end.

(** [loadHistory]. *)
Definition loadHistory (w : world) (historyPath : string) : result (list Operation) :=
  match ReadFile w historyPath with
  | Err err => Err (Errorf "error reading file: " err)
  | Ok Garbled => Err (Errorf "error parsing JSON: " UnmarshalError)
  | Ok (Json doc) =>
      match Unmarshal doc with
      | None => Err (Errorf "error parsing JSON: " UnmarshalError)
      | Some ops => Ok ops
      end
  end.

(** [json.MarshalIndent] of the operations: a nil slice is written [null],
    a nil map likewise, integers in decimal. *)
Definition Marshal_map (m : option object) : json :=
  match m with
  | None => JNull
  | Some fields => Json.of_any (Object fields)
  end.

Definition Marshal_Operation (op : Operation) : json :=
  JObject [("client_id", JNumber (pretty (ClientID op)));
           ("input", Marshal_map (Input op));
           ("call", JNumber (pretty (Call op)));
           ("output", Marshal_map (Output op));
           ("return_time", JNumber (pretty (ReturnTime op)))].

Definition Marshal (ops : list Operation) : json :=
  match ops with
  | [] => JNull
  | _ => JArray (map Marshal_Operation ops)
  end.

(** The comparison handed to [sort.Slice] in [MergeHistories]. *)
Definition less (a b : Operation) : bool := (Call a <? Call b)%Z.

(** The first loop of [MergeHistories]: the files are loaded in turn and
    appended to [allOps]; the first failure ends the function. *)
Fixpoint load_all (w : world) (historyPaths : list string) (allOps : list Operation)
    : result (list Operation) :=
  match historyPaths with
  | [] => Ok allOps
  | path :: rest =>
      match loadHistory w path with
      | Err err => Err (Errorf ("error loading " +:+ path +:+ ": ") err)
      | Ok ops => load_all w rest (allOps ++ ops)
      end
  end.

(** [MergeHistories]. [None] is the panic of [historyPaths[0]] on an empty
    list. The data always marshals, so that error branch is not taken. *)
Definition MergeHistories (lib : Library) (historyPaths : list string)
    : M (option (result string)) :=
  λ w,
  match load_all w historyPaths [] with
  | Err err => (Some (Err err), w)
  | Ok allOps =>
      let sorted := sort_Slice lib Operation less allOps in
      match historyPaths with
      | [] => (None, w)
      | first :: _ =>
          let mergedPath := Filepath.Join (Filepath.Dir first) "merged-history.json" in
          let '(failure, w') := WriteFile mergedPath (Json (Marshal sorted)) w in
          match failure with
          | Some err => (Some (Err (Errorf "error writing merged history: " err)), w')
          | None => (Some (Ok mergedPath), w')
          end
      end
  end.

(** [convertToPorcupineOperations]. [int] is as wide as [int64] on the
    platforms the verifier is built for. *)
Definition convertToPorcupineOperations (ops : list Operation) : list KV.Operation :=
  map (λ op, {| KV.ClientId := ClientID op;
                KV.Input := to_iface (Input op);
                KV.Call := Call op;
                KV.Output := to_iface (Output op);
                KV.Return := ReturnTime op |}) ops.

End History.
(** ** The orchestrator: [checker.go], [server.go] and [cmd/verifier/main.go] *)
Module Checker.
Import History.

(** The line feed of the format strings. *)
Definition nl : string := String (ascii_of_nat 10) EmptyString.

(** [HistoryResult]. The zero value of [Result] is the empty string, which
    is none of the engine's three results: it is [None] here. *)
Record HistoryResult : Type := {
  Path : string;
  HTMLPath : string;
  IsLinearizable : bool;
  TotalOps : Z;
  MaxPartialLen : Z;
  Result : option CheckResult
}.

Definition len {A : Type} (l : list A) : Z := Z.of_nat (length l).

(** [calculateMaxPartialLength]. *)
Definition calculateMaxPartialLength (info : LinearizationInfo) : Z :=
  foldl (λ maxPartialLength partition,
           foldl (λ maxPartialLength linearization,
                    if (maxPartialLength <? len linearization)%Z
                    then len linearization else maxPartialLength)
                 maxPartialLength partition)
        0%Z (PartialLinearizations info).

(** [generateVisualization]. The created file holds a page, not a JSON
    text; a failure of either step is a warning and the path is returned all
    the same. *)
Definition generateVisualization (lib : Library) (historyPath : string)
    (model : KV.Model) (info : LinearizationInfo) : M string :=
  let baseName := Filepath.TrimSuffix (Filepath.Base historyPath) (Filepath.Ext historyPath) in
  let htmlPath := Filepath.Join (Filepath.Dir historyPath) (baseName +:+ ".html") in
  failure ← store htmlPath Garbled (CreateError htmlPath);
  match failure with
  | Some err =>
      Eprint [Colorize [Plain "  ⚠️ Warning: Failed to create visualization file: ";
                        ErrorText err] [ColorYellow]; Plain nl];;
      mret htmlPath
  | None =>
      emit (Visualized htmlPath);;
      (if Visualize lib model info
       then Print [Colorize [Plain ("  🖼️  Generated visualization: " +:+ htmlPath)] [ColorGreen];
                   Plain nl]
       else Eprint [Colorize [Plain "  ⚠️ Warning: Failed to generate visualization: ";
                              ErrorText VisualizeError] [ColorYellow]; Plain nl]);;
      mret htmlPath
  end.

(** [printResults]. *)
Definition printResults (result : CheckResult) (totalOps maxPartialLength : Z) : M unit :=
  let isLinearizable := match result with Ok_ => true | _ => false end in
  if isLinearizable then
    Print [Colorize [Plain "  ✅ History is linearizable"] [ColorGreen]; Plain nl];;
    Print [Colorize [Plain ("  🧮 Total operations: " +:+ pretty totalOps)] [ColorGreen]; Plain nl];;
    if (0 <? maxPartialLength)%Z then
      Print [Colorize [Plain ("  📌 Max partial linearization length: " +:+ pretty maxPartialLength)]
               [ColorGreen]; Plain nl]
    else mret tt
  else
    Print [Colorize [Plain "  🚫 History is NOT linearizable"] [ColorRed]; Plain nl];;
    Print [Colorize [Plain ("  🧮 Total operations: " +:+ pretty totalOps)] [ColorRed]; Plain nl];;
    (if (0 <? maxPartialLength)%Z then
       Print [Colorize [Plain ("  📌 Max partial linearization length: " +:+ pretty maxPartialLength
                               +:+ " (out of " +:+ pretty totalOps +:+ ")")] [ColorRed]; Plain nl]
     else mret tt);;
    Print [Colorize [Plain ("  ⚠️ Check result: " +:+ CheckResult_text result)] [ColorYellow];
           Plain nl].

(** The timeout handed to the engine, [30*time.Second] in nanoseconds. *)
Definition timeout : Z := 30 * 1000000000.

(** [ProcessHistory]. *)
Definition ProcessHistory (lib : Library) (historyPath : string) : M HistoryResult :=
  Print [Plain nl; Colorize [Plain ("🧪 Processing " +:+ Filepath.Base historyPath)] [ColorCyan];
         Plain nl];;
  loaded ← (λ w, (loadHistory w historyPath, w));
  match loaded with
  | Err err =>
      Eprint [Plain "Error: "; ErrorText err; Plain nl];;
      mret {| Path := historyPath; HTMLPath := EmptyString; IsLinearizable := false;
              TotalOps := 0; MaxPartialLen := 0; Result := None |}
  | Ok ops =>
      if (len ops =? 0)%Z then
        Print [Colorize [Plain "  ⚪️ No operations found in history"] [ColorYellow]; Plain nl];;
        mret {| Path := historyPath; HTMLPath := EmptyString; IsLinearizable := true;
                TotalOps := 0; MaxPartialLen := 0; Result := None |}
      else
        let history := convertToPorcupineOperations ops in
        let model := KV.createKVModel in
        emit (Checked history timeout);;
        let '(result, info) := CheckOperationsVerbose lib model history timeout in
        let maxPartialLength := calculateMaxPartialLength info in
        htmlPath ← generateVisualization lib historyPath model info;
        printResults result (len history) maxPartialLength;;
        mret {| Path := historyPath; HTMLPath := htmlPath;
                IsLinearizable := match result with Ok_ => true | _ => false end;
                TotalOps := len history; MaxPartialLen := maxPartialLength;
                Result := Some result |}
  end.







End Checker.
(** ** Notions of the specification *)
Module Spec.
Import KV.

(** Sequential replay: the operations are fed to [Step] one after the other,
    in the order of the list, each on the state the previous one left. The
    result is the list of verdicts and the last state. *)
Fixpoint replay (s : iface) (h : list Operation) : option (list bool * iface) :=
  match h with
  | [] => Some ([], s)
  | op :: h' =>
      r ← Step s (Input op) (Output op);
      r' ← replay r.2 h';
      Some (r.1 :: r'.1, r'.2)
  end.

Definition is_string (v : any) : bool :=
  match as_string v with
  | Some _ => true
  | None => false
  end.

(** A well-formed [Put] or [Delete] on [key]: input and output are maps, the
    key is a string, and a [Put] carries a string value. *)
Definition put_or_delete_on (key : string) (op : Operation) : bool :=
  match as_map (Input op), as_map (Output op) with
  | Some inp, Some _ =>
      match as_string (index inp "type"), as_string (index inp "key") with
      | Some opType, Some k =>
          String.eqb k key &&
          ((String.eqb opType "Put" && is_string (index inp "value"))
           || String.eqb opType "Delete")
      | _, _ => false
      end
  | _, _ => false
  end.

(** The shape the specification gives the input and the output of each
    kind of operation: a type tag among the three, a string key, a string
    value for a [Put]; for a [Get], a string status and a value that is a
    string, null or absent. The output of a [Put] or [Delete] is free. *)

Definition expected_shape (inp out : object) : bool :=
  match as_string (index inp "type") with
  | Some opType =>
      if String.eqb opType "Put" then
        is_string (index inp "key") && is_string (index inp "value")
      else if String.eqb opType "Get" then
        is_string (index inp "key") && is_string (index out "status")
        && (is_nil (index out "value") || is_string (index out "value"))
      else if String.eqb opType "Delete" then is_string (index inp "key")
      else false
  | None => false
  end.

(** The states the engine holds: the initial one and those [Step] returned. *)
Inductive engine_state : iface → Prop :=
  | engine_state_Init : engine_state Init
  | engine_state_Step s input output legal s' :
      engine_state s → Step s input output = Some (legal, s') → engine_state s'.

(** The key of an operation, when its input has one that is a string. *)
Definition key_of (op : Operation) : option string :=
  inp ← as_map (Input op); as_string (index inp "key").

(** The name under which [partitionByKey] files an operation. *)
Definition group_name (op : Operation) : string :=
  default "__unknown__" (key_of op).

(** The operations of a history filed under a name, in their order. *)
Definition group (history : list Operation) (name : string) : list Operation :=
  filter (λ op, group_name op = name) history.

(** Grouping as the specification words it: every partition holds the
    operations of one key, or is the extra group, which holds operations
    without a key. *)
Definition grouped_by_key (result : list (list Operation)) : Prop :=
  ∀ g, g ∈ result →
    (∃ key, ∀ op, op ∈ g → key_of op = Some key) ∨ (∀ op, op ∈ g → key_of op = None).

(** The contract of [sort.Slice]: for a comparison that is a strict weak
    order, the slice is left a permutation of itself in which no element is
    less than one before it. The order of elements neither of which is less
    than the other is not part of it. *)
Record strict_weak_order {A : Type} (less : A → A → bool) : Prop := {
  swo_irreflexive : ∀ a, less a a = false;
  swo_transitive : ∀ a b c, less a b = true → less b c = true → less a c = true;
  swo_incomparable : ∀ a b c,
    less a b = false → less b a = false → less b c = false → less c b = false →
    less a c = false ∧ less c a = false
}.

Definition not_after {A : Type} (less : A → A → bool) (a b : A) : Prop := less b a = false.

#[global] Instance not_after_dec {A : Type} (less : A → A → bool) a b :
  Decision (not_after less a b).
Proof. unfold not_after. apply _. Defined.

Definition sorts_slices (lib : Library) : Prop :=
  ∀ (A : Type) (less : A → A → bool) (l : list A),
    strict_weak_order less →
    sort_Slice lib A less l ≡ₚ l ∧ Sorted (not_after less) (sort_Slice lib A less l).

Definition by_call (a b : History.Operation) : Prop := (History.Call a ≤ History.Call b)%Z.


(** A record of a trace file with its five members, each of the JSON kind
    the field asks for, and the operation it stands for. The members of
    [input] and [output] are arbitrary. *)
Definition record (client_id call return_time : string)
    (input output : list (string * json)) : json :=
  JObject [("client_id", JNumber client_id); ("input", JObject input);
           ("call", JNumber call); ("output", JObject output);
           ("return_time", JNumber return_time)].




(** Whether the engine was called during a run. *)
Definition engine_called (w : world) : Prop := ∃ history timeout, Checked history timeout ∈ trace w.


(** The lines of the report, as events. *)
Definition processing_line (historyPath : string) : event :=
  Stdout [Plain Checker.nl; Colorize [Plain ("🧪 Processing " +:+ Filepath.Base historyPath)] [ColorCyan];
          Plain Checker.nl].




(** The result [ProcessHistory] returns for a file it could not load. *)
Definition not_loaded (historyPath : string) : Checker.HistoryResult :=
  {| Checker.Path := historyPath; Checker.HTMLPath := EmptyString; Checker.IsLinearizable := false;
     Checker.TotalOps := 0; Checker.MaxPartialLen := 0; Checker.Result := None |}.


(** The result [ProcessHistory] returns once the engine has answered. *)
Definition checked (historyPath htmlPath : string) (totalOps : Z)
    (answer : CheckResult * LinearizationInfo) : Checker.HistoryResult :=
  {| Checker.Path := historyPath; Checker.HTMLPath := htmlPath;
     Checker.IsLinearizable := match answer.1 with Ok_ => true | _ => false end;
     Checker.TotalOps := totalOps;
     Checker.MaxPartialLen := Checker.calculateMaxPartialLength answer.2;
     Checker.Result := Some answer.1 |}.

(** The answer of the engine on the operations of a history. *)
Definition answer_of (lib : Library) (ops : list History.Operation)
    : CheckResult * LinearizationInfo :=
  CheckOperationsVerbose lib KV.createKVModel
    (History.convertToPorcupineOperations ops) Checker.timeout.

End Spec.

(** ** Concrete files, histories and libraries, for the examples *)
Module Examples.
Import History Spec.

(** Two ways to sort a slice: by insertion, which keeps equal elements in
    their order, and by merging, which does not. *)
Fixpoint insert {A : Type} (less : A → A → bool) (x : A) (sorted : list A) : list A :=
  match sorted with
  | [] => [x]
  | y :: rest => if less x y then x :: y :: rest else y :: insert less x rest
  end.

Definition insertion_sort (A : Type) (less : A → A → bool) (l : list A) : list A :=
  foldl (λ sorted x, insert less x sorted) [] l.

Definition merging_sort (A : Type) (less : A → A → bool) (l : list A) : list A :=
  merge_sort (not_after less) l.

(** A stub engine with a fixed answer, whose renderer succeeds. *)
Definition stub (sort : ∀ A : Type, (A → A → bool) → list A → list A)
    (answer : CheckResult) (partial : list (list (list Z))) : Library :=
  {| sort_Slice := sort;
     CheckOperationsVerbose := λ _ _ _, (answer, {| PartialLinearizations := partial |});
     Visualize := λ _ _, true |}.

Definition on_disk (contents : list (string * file)) : world :=
  {| files := list_to_map contents; unwritable := ∅; trace := [] |}.

(** A [Get] whose input has no key. *)
Definition keyless_get : json :=
  record "1" "10" "12" [("type", JString "Get")] [("status", JString "ok"); ("value", JNull)].

Definition keyless_get_op : Operation :=
  {| ClientID := 1; Input := Some {["type" := Str "Get"]}; Call := 10;
     Output := Some (<["status" := Str "ok"]> {["value" := Nil]}); ReturnTime := 12 |}.

(** A [Delete] on the key ["__unknown__"]. *)
Definition delete_unknown_op : Operation :=
  {| ClientID := 2; Input := Some (<["type" := Str "Delete"]> {["key" := Str "__unknown__"]});
     Call := 1; Output := None; ReturnTime := 2 |}.

(** A history where the key ["__unknown__"] meets an operation without key. *)
Definition clash : list KV.Operation :=
  convertToPorcupineOperations [delete_unknown_op; keyless_get_op].

(** Two clients that put at the same instant, one file each. *)
Definition put_record (client value : string) : json :=
  record client "5" "6" [("type", JString "Put"); ("key", JString "x"); ("value", JString value)] [].

Definition put_op (client : Z) (value : string) : Operation :=
  {| ClientID := client;
     Input := Some (<["type" := Str "Put"]> (<["key" := Str "x"]> {["value" := Str value]}));
     Call := 5; Output := Some ∅; ReturnTime := 6 |}.

Definition two_clients : world :=
  on_disk [("a.json", Json (JArray [put_record "1" "a"]));
           ("b.json", Json (JArray [put_record "2" "b"]))].




Definition early_record : json :=
  record "2" "0" "3" [("type", JString "Put"); ("key", JString "x"); ("value", JString "early")] [].

Definition early_op : Operation :=
  {| ClientID := 2;
     Input := Some (<["type" := Str "Put"]> (<["key" := Str "x"]> {["value" := Str "early"]}));
     Call := 0; Output := Some ∅; ReturnTime := 3 |}.


(** A history of one [Put], checked by a stub engine with a given answer. *)
Definition one_put : world :=
  on_disk [("history.json", Json (JArray [put_record "1" "a"]))].



End Examples.

(** ** Further notions, for the properties beyond the specification's *)
Module Notions.
Import KV.

(** What one step does to the binding of the key it names. *)
Inductive write : Type :=
  | Keep
  | Bind (value : string)
  | Unbind.

Definition apply_write (key : string) (w : write) (st : state) : state :=
  match w with
  | Keep => st
  | Bind value => <[key := value]> st
  | Unbind => delete key st
  end.

(** An operation of the engine with map input and output, and a string key. *)
Definition keyed (key : string) (op : Operation) : Prop :=
  ∃ inp, as_map (Input op) = Some inp ∧ is_Some (as_map (Output op))
         ∧ index inp "key" = Str key.

(** The calls of the engine recorded in a list of events. *)
Definition checks (events : list event) : list (list Operation * Z) :=
  omap (λ e, match e with Checked history timeout => Some (history, timeout) | _ => None end)
       events.

(** The path of the page [generateVisualization] writes for a history. *)
Definition page_of (historyPath : string) : string :=
  Filepath.Join (Filepath.Dir historyPath)
    (Filepath.TrimSuffix (Filepath.Base historyPath) (Filepath.Ext historyPath) +:+ ".html").

(** The values [encoding/json] can have produced: every number in them is
    a literal [float64] holds. *)
Inductive representable : any → Prop :=
  | representable_Nil : representable Nil
  | representable_Bool b : representable (Bool b)
  | representable_Number lit : Strconv.fits_float64 lit = true → representable (Number lit)
  | representable_Str s : representable (Str s)
  | representable_Array items :
      (∀ v, v ∈ items → representable v) → representable (Array items)
  | representable_Object (fields : object) :
      (∀ name v, fields !! name = Some v → representable v) → representable (Object fields).

Definition representable_map (m : option object) : Prop :=
  ∀ fields name v, m = Some fields → fields !! name = Some v → representable v.

Definition int64 (z : Z) : Prop := (- 2 ^ 63 ≤ z < 2 ^ 63)%Z.

(** The operations [json.Unmarshal] can have produced. *)
Definition well_formed (op : History.Operation) : Prop :=
  int64 (History.ClientID op) ∧ int64 (History.Call op) ∧ int64 (History.ReturnTime op)
  ∧ representable_map (History.Input op) ∧ representable_map (History.Output op).

End Notions.

(** ** The description functions of the model

    [describeOperation] and [describeState] feed the visualisation. *)
Module Describe.
Import KV.

(** The string a call of [fmt.Sprintf] returns. Where every argument is a
    Go string, [%s] copies it and the result is known: [Text]. Otherwise the
    call is kept as it stands: its result is up to the way [fmt] prints
    floats, slices and maps. *)
Inductive description : Type :=
  | Text (s : string)
  | Sprintf (format : string) (args : list iface).

(** [describeOperation]. The two assertions on the input and the output
    are plain, those on the fields are in the comma-ok form with the flag
    dropped: a field that is not a string reads as the empty string. *)
Definition describeOperation (input output : iface) : option description :=
  inp ← as_map input;
  out ← as_map output;
  let opType := default EmptyString (as_string (index inp "type")) in
  let key := default EmptyString (as_string (index inp "key")) in
  Some (
    if String.eqb opType "Put" then
      let value := default EmptyString (as_string (index inp "value")) in
      Text ("Put('" +:+ key +:+ "', '" +:+ value +:+ "')")
    else if String.eqb opType "Get" then
      match out !! "value" with
      | None | Some Nil => Text ("Get('" +:+ key +:+ "') -> nil")
      | Some (Str s) => Text ("Get('" +:+ key +:+ "') -> '" +:+ s +:+ "'")
      | Some outValue => Sprintf "Get('%s') -> '%s'" [IJson (Str key); IJson outValue]
      end
    else if String.eqb opType "Delete" then Text ("Delete('" +:+ key +:+ "')")
    else Sprintf "%v -> %v" [input; output]).

(** The element [describeState] appends for one binding. *)
Definition describe_binding (kv : string * string) : string :=
  "'" +:+ kv.1 +:+ "': '" +:+ kv.2 +:+ "'".

(** [describeState]. The loop ranges over the map, in an order Go leaves
    unspecified: every order of the bindings gives a possible result. No
    string is related to a value that is not a [map[string]string], on which
    the assertion panics. *)
Definition describeState (state : iface) (s : string) : Prop :=
  ∃ st, as_state state = Some st
    ∧ if decide (size st = 0%nat) then s = "{}"
      else ∃ parts, parts ≡ₚ map_to_list st
             ∧ s = "{" +:+ String.concat ", " (describe_binding <$> parts) +:+ "}".


End Describe.

(** ** Libraries and worlds in which the page cannot be made *)
Module Cases.

(** The library whose renderer fails. *)
Definition blind (lib : Library) : Library :=
  {| sort_Slice := sort_Slice lib;
     CheckOperationsVerbose := CheckOperationsVerbose lib;
     Visualize := λ _ _, false |}.

(** The world in which the given paths cannot be written. *)
Definition read_only (paths : list string) (w : world) : world :=
  {| files := files w; unwritable := list_to_set paths; trace := trace w |}.

(** Two clients that put one after the other, one file each. *)
Definition in_turn : world :=
  Examples.on_disk [("a.json", Json (JArray [Examples.early_record]));
                    ("b.json", Json (JArray [Examples.put_record "1" "a"]))].

End Cases.

(** * Properties of the key-value model *)

Section KVModel.
Import KV Spec.

Implicit Types (st : state) (inp out : object) (input output : iface).

Lemma as_string_Str (v : any) (s : string) : as_string v = Some s ↔ v = Str s.
Proof. destruct v; simpl; split; congruence. Qed.

Lemma is_nil_Nil (v : any) : is_nil v = true ↔ v = Nil.
Proof. destruct v; simpl; split; congruence. Qed.

Lemma index_Nil (m : object) (k : string) :
  index m k = Nil ↔ m !! k = None ∨ m !! k = Some Nil.
Proof.
  unfold index. destruct (m !! k) as [v|]; simpl; split; auto.
  - intros ->; auto.
  - intros [?|?]; congruence.
Qed.

Lemma eqb_true (a b : string) : String.eqb a b = true ↔ a = b.
Proof. apply String.eqb_eq. Qed.

(** The handlers never touch the map when they refuse. *)
Lemma handlePut_refused st inp st' : handlePut st inp = (false, st') → st' = st.
Proof.
  unfold handlePut.
  destruct (as_string (index inp "key")), (as_string (index inp "value")); congruence.
Qed.

Lemma handleGet_state st inp out : (handleGet st inp out).2 = st.
Proof.
  unfold handleGet.
  repeat (case_match; simpl; try reflexivity).
Qed.

Lemma handleDelete_refused st inp st' : handleDelete st inp = (false, st') → st' = st.
Proof.
  unfold handleDelete. destruct (as_string (index inp "key")); congruence.
Qed.

(** [Step] on values of the asserted types, as one equation. *)
Lemma Step_typed st input output inp out :
  as_map input = Some inp → as_map output = Some out →
  Step (IState st) input output =
    Some (prod_map id IState
      match as_string (index inp "type") with
      | None => (false, st)
      | Some opType =>
          if String.eqb opType "Put" then handlePut st inp
          else if String.eqb opType "Get" then handleGet st inp out
          else if String.eqb opType "Delete" then handleDelete st inp
          else (false, st)
      end).
Proof. intros Hi Ho. unfold Step. simpl. rewrite Hi, Ho. reflexivity. Qed.

(** C1. For every state and every [Get] on a key, [Step] answers, leaves the
    state as it was, and reports the operation legal exactly when the output's
    [status] is the string ["ok"] and the output's [value] is the binding of
    the key: nil (absent or null) when the key is unbound, the stored string
    when it is bound. *)
Theorem Get_legal_iff st input output inp out (key : string) :
  as_map input = Some inp →
  as_map output = Some out →
  index inp "type" = Str "Get" →
  index inp "key" = Str key →
  ∃ legal,
    Step (IState st) input output = Some (legal, IState st)
    ∧ (legal = true ↔
         index out "status" = Str "ok"
         ∧ match st !! key with
           | None => out !! "value" = None ∨ out !! "value" = Some Nil
           | Some stored => out !! "value" = Some (Str stored)
           end).
Proof.
  intros Hi Ho Ht Hk.
  rewrite (Step_typed st input output inp out Hi Ho), Ht. simpl.
  pose proof (handleGet_state st inp out) as Hst.
  destruct (handleGet st inp out) as [legal st1] eqn:E. simpl in Hst. subst st1.
  exists legal. split; [reflexivity|].
  replace legal with (handleGet st inp out).1 by (rewrite E; reflexivity).
  clear E legal.
  - unfold handleGet. rewrite Hk. simpl.
    destruct (as_string (index out "status")) as [status|] eqn:Hs; simpl.
    2:{ split; [discriminate|]. intros [E _]. rewrite E in Hs. discriminate. }
    apply as_string_Str in Hs. rewrite Hs.
    destruct (String.eqb status "ok") eqn:Hok; simpl.
    2:{ split; [discriminate|]. intros [E _]. inversion E; subst. discriminate. }
    apply eqb_true in Hok. subst status.
    destruct (st !! key) as [stored|]; simpl.
    + unfold index. destruct (out !! "value") as [[]|]; simpl;
        try (split; [discriminate | intros [_ ?]; congruence]).
      rewrite eqb_true. split; [intros ->; auto | intros [_ ?]; congruence].
    + rewrite is_nil_Nil, index_Nil. tauto.
Qed.

(** A [Get] on a bound key with the stored value, on a concrete state. *)
Lemma Get_legal_iff_witness :
  ∃ legal,
    Step (IState {["x" := "1"]})
         (IJson (Object (<["type" := Str "Get"]> {["key" := Str "x"]})))
         (IJson (Object (<["status" := Str "ok"]> {["value" := Str "1"]})))
      = Some (legal, IState {["x" := "1"]})
    ∧ (legal = true ↔
         index (<["status" := Str "ok"]> {["value" := Str "1"]}) "status" = Str "ok"
         ∧ match ({["x" := "1"]} : state) !! "x" with
           | None => (<["status" := Str "ok"]> {["value" := Str "1"]} : object) !! "value" = None
                     ∨ (<["status" := Str "ok"]> {["value" := Str "1"]} : object) !! "value" = Some Nil
           | Some stored =>
               (<["status" := Str "ok"]> {["value" := Str "1"]} : object) !! "value" = Some (Str stored)
           end).
Proof.
  apply (Get_legal_iff {["x" := "1"]} _ _
           (<["type" := Str "Get"]> {["key" := Str "x"]})
           (<["status" := Str "ok"]> {["value" := Str "1"]}) "x");
    reflexivity.
Defined.

Lemma Step_refused_content (s input output s' : iface) :
  Step s input output = Some (false, s') → s' = s.
Proof.
  destruct s as [st| |v]; try discriminate.
  unfold Step. simpl.
  destruct (as_map input) as [inp|]; [simpl|discriminate].
  destruct (as_map output) as [out|]; [simpl|discriminate].
  intros H. injection H as Hl Hs.
  destruct (as_string (index inp "type")) as [opType|]; simpl in *; [|congruence].
  destruct (String.eqb opType "Put").
  { destruct (handlePut st inp) as [b st1] eqn:E. simpl in *. subst.
    apply handlePut_refused in E. congruence. }
  destruct (String.eqb opType "Get").
  { rewrite <- Hs. f_equal. apply handleGet_state. }
  destruct (String.eqb opType "Delete").
  { destruct (handleDelete st inp) as [b st1] eqn:E. simpl in *. subst.
    apply handleDelete_refused in E. congruence. }
  simpl in *. congruence.
Qed.

(** The model on the store does to the map at [st] what [KV.Step] says, and
    leaves every other map alone; it panics when [KV.Step] does. *)
Lemma Shared_Step_refines (σ : Shared.store) (ref : Shared.loc) input output :
  match Shared.Step σ ref input output,
        Step (IState (Shared.content σ ref)) input output with
  | Some (legal, ref', σ'), Some (legal', s') =>
      legal' = legal ∧ ref' = ref ∧ s' = IState (Shared.content σ' ref)
      ∧ ∀ l, l ≠ ref → σ' !! l = σ !! l
  | None, None => True
  | _, _ => False
  end.
Proof.
  unfold Shared.Step, Step. simpl.
  destruct (as_map input) as [inp|]; simpl; [|exact I].
  destruct (as_map output) as [out|]; simpl; [|exact I].
  destruct (as_string (index inp "type")) as [opType|]; simpl; [|by auto].
  destruct (String.eqb opType "Put").
  { unfold Shared.handlePut, handlePut.
    destruct (as_string (index inp "key")) as [key|]; [|by auto].
    destruct (as_string (index inp "value")) as [value|]; simpl; [|by auto].
    repeat split.
    - unfold Shared.content at 2. rewrite lookup_insert_eq. reflexivity.
    - intros l Hl. by rewrite lookup_insert_ne. }
  destruct (String.eqb opType "Get").
  { unfold Shared.handleGet. simpl.
    pose proof (handleGet_state (Shared.content σ ref) inp out) as Hs.
    destruct (handleGet (Shared.content σ ref) inp out) as [b m]. simpl in *. subst m.
    auto. }
  destruct (String.eqb opType "Delete"); simpl; [|by auto].
  unfold Shared.handleDelete, handleDelete.
  destruct (as_string (index inp "key")) as [key|]; simpl; [|by auto].
  repeat split.
  - unfold Shared.content at 2. rewrite lookup_insert_eq. reflexivity.
  - intros l Hl. by rewrite lookup_insert_ne.
Qed.

(** C10. Whenever [Step] reports an operation illegal, the state it returns
    is the state it was given: the map it returns is the map it received,
    and no map of the store has been written to. The content of the state is
    therefore what it was. *)
Theorem illegal_keeps_state :
  (∀ (σ : Shared.store) (ref : Shared.loc) input output ref' σ',
     Shared.Step σ ref input output = Some (false, ref', σ') → ref' = ref ∧ σ' = σ)
  ∧ (∀ (s input output s' : iface), Step s input output = Some (false, s') → s' = s).
Proof.
  split; [|exact Step_refused_content].
  intros σ ref input output ref' σ'. unfold Shared.Step.
  destruct (as_map input) as [inp|]; [simpl|discriminate].
  destruct (as_map output) as [out|]; [simpl|discriminate].
  intros H. injection H as H.
  destruct (as_string (index inp "type")) as [opType|]; [|by injection H as <- <-].
  destruct (String.eqb opType "Put").
  { unfold Shared.handlePut in H.
    destruct (as_string (index inp "key")), (as_string (index inp "value"));
      try discriminate; by injection H as <- <-. }
  destruct (String.eqb opType "Get").
  { unfold Shared.handleGet in H. by injection H as _ <- <-. }
  destruct (String.eqb opType "Delete"); [|by injection H as <- <-].
  unfold Shared.handleDelete in H.
  destruct (as_string (index inp "key")); try discriminate; by injection H as <- <-.
Qed.

(** A [Put] without a value is refused on a store with one state, which
    stays as it is. *)
Lemma illegal_keeps_state_witness :
  Shared.Step {[1%positive := {["x" := "1"]}]} 1%positive
    (IJson (Object (<["type" := Str "Put"]> {["key" := Str "x"]}))) INilMap
  = Some (false, 1%positive, {[1%positive := {["x" := "1"]}]})
  ∧ 1%positive = 1%positive
  ∧ ({[1%positive := {["x" := "1"]}]} : Shared.store) = {[1%positive := {["x" := "1"]}]}.
Proof.
  split; [reflexivity|].
  apply (proj1 illegal_keeps_state {[1%positive := {["x" := "1"]}]} 1%positive
           (IJson (Object (<["type" := Str "Put"]> {["key" := Str "x"]}))) INilMap).
  reflexivity.
Defined.

(** Every state the engine holds is a [map[string]string]. *)
Lemma engine_state_typed (s : iface) : engine_state s → ∃ st, s = IState st.
Proof.
  induction 1 as [|s input output legal s' _ [st ->] Hstep].
  - exists ∅. reflexivity.
  - unfold Step in Hstep. simpl in Hstep.
    destruct (as_map input); [simpl in Hstep|discriminate].
    destruct (as_map output); [simpl in Hstep|discriminate].
    injection Hstep as _ <-. eauto.
Qed.

Lemma as_map_to_iface (m : option object) : as_map (to_iface m) = Some (default ∅ m).
Proof. destruct m; reflexivity. Qed.

Lemma is_string_false (v : any) : is_string v = false → as_string v = None.
Proof.
  unfold is_string. destruct (as_string v); [discriminate | reflexivity].
Qed.

(** An operation off the expected shape is refused by the handlers. *)
Lemma off_shape_refused st inp out :
  expected_shape inp out = false →
  match as_string (index inp "type") with
  | None => (false, st)
  | Some opType =>
      if String.eqb opType "Put" then handlePut st inp
      else if String.eqb opType "Get" then handleGet st inp out
      else if String.eqb opType "Delete" then handleDelete st inp
      else (false, st)
  end = (false, st).
Proof.
  unfold expected_shape.
  destruct (as_string (index inp "type")) as [opType|]; [|reflexivity].
  destruct (String.eqb opType "Put").
  { intros H. apply andb_false_iff in H as [H|H]; apply is_string_false in H;
      unfold handlePut; rewrite H; [reflexivity|].
    destruct (as_string (index inp "key")); reflexivity. }
  destruct (String.eqb opType "Get").
  { intros H. unfold handleGet.
    destruct (as_string (index inp "key")) as [key|] eqn:Hk; [|reflexivity].
    destruct (as_string (index out "status")) as [status|] eqn:Hs; [|reflexivity].
    destruct (negb (String.eqb status "ok")); [reflexivity|].
    unfold is_string in H. rewrite Hk, Hs in H. simpl in H.
    apply orb_false_iff in H as [Hn Hv]. rewrite Hn.
    destruct (as_string (index out "value")); [discriminate|].
    destruct (st !! key); reflexivity. }
  destruct (String.eqb opType "Delete"); [|reflexivity].
  intros H. apply is_string_false in H. unfold handleDelete. rewrite H. reflexivity.
Qed.

(** C5. On every state the engine holds and on the input and output of
    every operation of a loaded history, [Step] returns: none of its type
    assertions fails. The state it returns is again one the engine may hold,
    and an operation whose input or output is off the expected shape of its
    kind gets the verdict [false], with the state left as it was. *)
Theorem Step_never_raises (s : iface) (ops : list History.Operation) (op : Operation) :
  engine_state s →
  op ∈ History.convertToPorcupineOperations ops →
  ∃ legal s',
    Step s (Input op) (Output op) = Some (legal, s')
    ∧ engine_state s'
    ∧ ∀ inp out, as_map (Input op) = Some inp → as_map (Output op) = Some out →
        expected_shape inp out = false → legal = false ∧ s' = s.
Proof.
  intros Hs Hop.
  destruct (engine_state_typed s Hs) as [st ->].
  unfold History.convertToPorcupineOperations in Hop.
  apply list_elem_of_fmap in Hop as [hop [-> _]]. simpl.
  pose proof (as_map_to_iface (History.Input hop)) as Hi.
  pose proof (as_map_to_iface (History.Output hop)) as Ho.
  pose proof (Step_typed st _ _ _ _ Hi Ho) as Hstep.
  destruct (prod_map id IState _) as [legal s'] eqn:E in Hstep.
  exists legal, s'. split; [exact Hstep|]. split.
  - eapply engine_state_Step; eauto.
  - intros inp out Hi' Ho' Hshape.
    rewrite Hi in Hi'. rewrite Ho in Ho'.
    injection Hi' as <-. injection Ho' as <-.
    rewrite (off_shape_refused st _ _ Hshape) in E. simpl in E.
    injection E as <- <-. auto.
Qed.

(** A [Get] without a key, after a [Put], in a history of two records. *)
Lemma Step_never_raises_witness :
  ∃ legal s',
    Step (IState {["x" := "1"]}) (IJson (Object {["type" := Str "Get"]})) INilMap
      = Some (legal, s')
    ∧ engine_state s'
    ∧ ∀ inp out,
        as_map (IJson (Object {["type" := Str "Get"]})) = Some inp →
        as_map INilMap = Some out →
        expected_shape inp out = false → legal = false ∧ s' = IState {["x" := "1"]}.
Proof.
  apply (Step_never_raises (IState {["x" := "1"]})
           [ {| History.ClientID := 0;
                History.Input := Some (<["type" := Str "Put"]>
                                        (<["key" := Str "x"]> {["value" := Str "1"]}));
                History.Call := 0; History.Output := None; History.ReturnTime := 1 |};
             {| History.ClientID := 0;
                History.Input := Some {["type" := Str "Get"]};
                History.Call := 2; History.Output := None; History.ReturnTime := 3 |} ]
           {| ClientId := 0; Input := IJson (Object {["type" := Str "Get"]});
              Call := 2; Output := INilMap; Return := 3 |}).
  - apply (engine_state_Step Init
             (IJson (Object (<["type" := Str "Put"]>
                               (<["key" := Str "x"]> {["value" := Str "1"]}))))
             INilMap true); [constructor | reflexivity].
  - simpl. right. left.
Defined.

Lemma put_or_delete_steps (key : string) (op : Operation) st :
  put_or_delete_on key op = true →
  ∃ st', Step (IState st) (Input op) (Output op) = Some (true, IState st').
Proof.
  unfold put_or_delete_on.
  destruct (as_map (Input op)) as [inp|] eqn:Hi; [|discriminate].
  destruct (as_map (Output op)) as [out|] eqn:Ho; [|discriminate].
  destruct (as_string (index inp "type")) as [opType|] eqn:Ht; [|discriminate].
  destruct (as_string (index inp "key")) as [k|] eqn:Hk; [|discriminate].
  intros H. rewrite (Step_typed st _ _ inp out Hi Ho), Ht.
  apply andb_true_iff in H as [_ H].
  destruct (String.eqb opType "Put") eqn:HP; simpl in H.
  - apply orb_true_iff in H as [H|H].
    + unfold is_string in H.
      destruct (as_string (index inp "value")) as [v|] eqn:Hv; [|discriminate].
      unfold handlePut. rewrite Hk, Hv. simpl. eauto.
    + apply eqb_true in H. subst. discriminate.
  - destruct (String.eqb opType "Get") eqn:HG.
    { apply eqb_true in HG. subst. discriminate. }
    rewrite H. unfold handleDelete. rewrite Hk. simpl. eauto.
Qed.

(** C6. A well-formed [Put] is legal whatever the output, and leaves the
    state with the key bound to the value; a well-formed [Delete] is legal and
    leaves the state without the key, which changes nothing when the key was
    unbound. On the store, the map returned is the map received, written in
    place. So a history of well-formed [Put]s and [Delete]s on one key,
    replayed in any order, the call order among them, gets the verdict
    [true] at every step. *)
Theorem put_delete_always_legal :
  (∀ st input output inp (key value : string),
     as_map input = Some inp → is_Some (as_map output) →
     index inp "type" = Str "Put" → index inp "key" = Str key →
     index inp "value" = Str value →
     Step (IState st) input output = Some (true, IState (<[key := value]> st))
     ∧ ∀ (σ : Shared.store) (ref : Shared.loc),
         Shared.Step σ ref input output
         = Some (true, ref, <[ref := <[key := value]> (Shared.content σ ref)]> σ))
  ∧ (∀ st input output inp (key : string),
       as_map input = Some inp → is_Some (as_map output) →
       index inp "type" = Str "Delete" → index inp "key" = Str key →
       Step (IState st) input output = Some (true, IState (delete key st))
       ∧ (st !! key = None → delete key st = st)
       ∧ ∀ (σ : Shared.store) (ref : Shared.loc),
           Shared.Step σ ref input output
           = Some (true, ref, <[ref := delete key (Shared.content σ ref)]> σ))
  ∧ (∀ st (key : string) (history : list Operation),
       Forall (λ op, put_or_delete_on key op = true) history →
       ∃ s', replay (IState st) history = Some (replicate (length history) true, s')).
Proof.
  split; [|split].
  - intros st input output inp key value Hi [out Ho] Ht Hk Hv. split.
    + rewrite (Step_typed st _ _ inp out Hi Ho), Ht. simpl.
      unfold handlePut. rewrite Hk, Hv. reflexivity.
    + intros σ ref. unfold Shared.Step. rewrite Hi, Ho. simpl. rewrite Ht. simpl.
      unfold Shared.handlePut. rewrite Hk, Hv. reflexivity.
  - intros st input output inp key Hi [out Ho] Ht Hk. split; [|split].
    + rewrite (Step_typed st _ _ inp out Hi Ho), Ht. simpl.
      unfold handleDelete. rewrite Hk. reflexivity.
    + apply delete_id.
    + intros σ ref. unfold Shared.Step. rewrite Hi, Ho. simpl. rewrite Ht. simpl.
      unfold Shared.handleDelete. rewrite Hk. reflexivity.
  - intros st key history. revert st.
    induction history as [|op h IH]; intros st Hall.
    + eexists. reflexivity.
    + apply Forall_cons in Hall as [Hop Hh].
      destruct (put_or_delete_steps key op st Hop) as [st' Hstep].
      destruct (IH st' Hh) as [s' Hr].
      exists s'. simpl. rewrite Hstep. simpl. rewrite Hr. reflexivity.
Qed.

(** The first two scenarios of the specification, replayed: a [Get] that
    returns the value put before it is legal, one that returns another value
    is not. *)
Example replay_put_get :
  ∃ s s',
    replay Init (History.convertToPorcupineOperations
      [Examples.put_op 1 "1";
       {| History.ClientID := 1; History.Input := Some (<["type" := Str "Get"]> {["key" := Str "x"]});
          History.Call := 7;
          History.Output := Some (<["status" := Str "ok"]> {["value" := Str "1"]});
          History.ReturnTime := 8 |}]) = Some ([true; true], s)
    ∧ replay Init (History.convertToPorcupineOperations
        [Examples.put_op 1 "1";
         {| History.ClientID := 1; History.Input := Some (<["type" := Str "Get"]> {["key" := Str "x"]});
            History.Call := 7;
            History.Output := Some (<["status" := Str "ok"]> {["value" := Str "2"]});
            History.ReturnTime := 8 |}]) = Some ([true; false], s').
Proof. eexists _, _. split; vm_compute; reflexivity. Qed.

(** A [Put], a [Delete] of an unbound key, and a history of both on ["x"]. *)
Lemma put_delete_always_legal_witness :
  Step (IState ∅)
       (IJson (Object (<["type" := Str "Put"]> (<["key" := Str "x"]> {["value" := Str "1"]}))))
       (IJson (Object {["status" := Number "7"]}))
    = Some (true, IState (<["x" := "1"]> ∅))
  ∧ Step (IState {["y" := "2"]})
         (IJson (Object (<["type" := Str "Delete"]> {["key" := Str "x"]}))) INilMap
    = Some (true, IState (delete "x" {["y" := "2"]}))
  ∧ ∃ s', replay (IState ∅)
            (History.convertToPorcupineOperations
               [Examples.put_op 1 "a";
                {| History.ClientID := 2;
                   History.Input := Some (<["type" := Str "Delete"]> {["key" := Str "x"]});
                   History.Call := 7; History.Output := None; History.ReturnTime := 8 |};
                Examples.put_op 2 "b"])
          = Some (replicate 3 true, s').
Proof.
  destruct put_delete_always_legal as (HPut & HDelete & HReplay).
  split; [|split].
  - apply (HPut ∅ _ _
             (<["type" := Str "Put"]> (<["key" := Str "x"]> {["value" := Str "1"]})) "x" "1");
      [reflexivity | eexists; reflexivity | reflexivity | reflexivity | reflexivity].
  - apply (HDelete {["y" := "2"]} _ _ (<["type" := Str "Delete"]> {["key" := Str "x"]}) "x");
      [reflexivity | eexists; reflexivity | reflexivity | reflexivity].
  - apply (HReplay ∅ "x").
    repeat constructor.
Defined.

End KVModel.

(** * Properties of the partitioning *)

Section Partition.
Import KV Spec.

Implicit Types (history h : list Operation) (names : list string).

Lemma partition_add_name partitions op inp :
  as_map (Input op) = Some inp →
  partition_add partitions op
  = Some (<[group_name op := default [] (partitions !! group_name op) ++ [op]]> partitions).
Proof.
  intros Hi. unfold partition_add, group_name, key_of, partition_key.
  rewrite Hi. reflexivity.
Qed.

(** The map built by the first loop: under every name, the operations filed
    under it, in the order of the history; no entry for a name nothing is
    filed under. *)
Lemma partitionByKey_groups_lookup h :
  Forall (λ op, is_Some (as_map (Input op))) h →
  ∃ partitions,
    partitionByKey_groups h = Some partitions
    ∧ ∀ name, partitions !! name
              = match group h name with [] => None | g => Some g end.
Proof.
  induction h as [|op h IH] using rev_ind; intros Hall.
  - exists ∅. split; [reflexivity|]. intros name. apply lookup_empty.
  - apply Forall_app in Hall as [Hh Hop].
    apply Forall_singleton in Hop as [inp Hi].
    destruct (IH Hh) as (partitions & Hg & Hl).
    unfold partitionByKey_groups in *. rewrite foldl_snoc, Hg. simpl.
    rewrite (partition_add_name partitions op inp Hi).
    eexists. split; [reflexivity|].
    intros name. unfold group. rewrite filter_app.
    destruct (decide (group_name op = name)) as [<-|Hne].
    + rewrite lookup_insert_eq, Hl.
      rewrite (filter_cons_True _ op []) by reflexivity.
      unfold group. simpl.
      destruct (filter _ h); reflexivity.
    + rewrite lookup_insert_ne by exact Hne.
      rewrite (filter_cons_False _ op []) by exact Hne.
      rewrite Hl, app_nil_r. reflexivity.
Qed.

Lemma group_nonempty h name : group h name ≠ [] ↔ ∃ op, op ∈ h ∧ group_name op = name.
Proof.
  unfold group. split.
  - destruct (filter _ h) as [|op g] eqn:E; [congruence|]. intros _.
    assert (op ∈ filter (λ op, group_name op = name) h) as Hin by (rewrite E; left).
    apply list_elem_of_filter in Hin. exists op. tauto.
  - intros (op & Hin & Hn) E.
    assert (op ∈ filter (λ op, group_name op = name) h) as Hin'
      by (apply list_elem_of_filter; auto).
    rewrite E in Hin'. inversion Hin'.
Qed.

(** The groups under a duplicate-free list of names are, together, the
    operations whose name is in the list. *)
Lemma concat_groups h names :
  NoDup names →
  concat (group h <$> names) ≡ₚ filter (λ op, group_name op ∈ names) h.
Proof.
  induction 1 as [|name names Hnotin _ IH]; simpl.
  - induction h as [|op h IHh]; [reflexivity|].
    rewrite filter_cons_False; [exact IHh | inversion 1].
  - rewrite IH. clear IH. unfold group.
    induction h as [|op h IHh]; [reflexivity|].
    destruct (decide (group_name op = name)) as [E|E].
    + rewrite (filter_cons_True (λ op, group_name op = name)) by exact E.
      rewrite (filter_cons_False (λ op, group_name op ∈ names)) by (rewrite E; exact Hnotin).
      rewrite (filter_cons_True (λ op, group_name op ∈ name :: names)) by (rewrite E; left).
      simpl. f_equiv. exact IHh.
    + rewrite (filter_cons_False (λ op, group_name op = name)) by exact E.
      destruct (decide (group_name op ∈ names)) as [I|I].
      * rewrite (filter_cons_True (λ op, group_name op ∈ names)) by exact I.
        rewrite (filter_cons_True (λ op, group_name op ∈ name :: names)) by (right; exact I).
        rewrite <- Permutation_middle. f_equiv. exact IHh.
      * rewrite (filter_cons_False (λ op, group_name op ∈ names)) by exact I.
        rewrite (filter_cons_False (λ op, group_name op ∈ name :: names)).
        -- exact IHh.
        -- intros J. apply elem_of_cons in J as [J|J]; auto.
Qed.

Lemma filter_all {A} (P : A → Prop) `{∀ x, Decision (P x)} (l : list A) :
  Forall P l → filter P l = l.
Proof.
  induction 1 as [|x l Hx _ IH]; [reflexivity|].
  rewrite filter_cons_True by exact Hx. f_equal. exact IH.
Qed.

Lemma converted_inputs_are_maps (ops : list History.Operation) :
  Forall (λ op, is_Some (as_map (Input op))) (History.convertToPorcupineOperations ops).
Proof.
  unfold History.convertToPorcupineOperations.
  apply Forall_fmap, Forall_forall. intros hop _. simpl.
  rewrite as_map_to_iface. eauto.
Qed.

(** What [partitionByKey] returns on a history whose inputs are maps. *)
Lemma partitionByKey_characterised h result :
  Forall (λ op, is_Some (as_map (Input op))) h →
  partitionByKey h result →
  concat result ≡ₚ h
  ∧ ∃ names,
      NoDup names
      ∧ (∀ name, name ∈ names ↔ ∃ op, op ∈ h ∧ group_name op = name)
      ∧ result = group h <$> names.
Proof.
  intros Hall (partitions & Hg & Hperm).
  destruct (partitionByKey_groups_lookup h Hall) as (partitions' & Hg' & Hl).
  rewrite Hg in Hg'. injection Hg' as <-.
  assert ((map_to_list partitions).*2 = group h <$> (map_to_list partitions).*1) as Hsnd.
  { rewrite <- list_fmap_compose. apply list_fmap_ext.
    intros i [name g] Hlook. simpl.
    apply list_elem_of_lookup_2, elem_of_map_to_list in Hlook.
    rewrite Hl in Hlook. destruct (group h name); congruence. }
  rewrite Hsnd in Hperm.
  apply Permutation_map_inv in Hperm as (names & -> & Hnames).
  assert (NoDup names) as Hnd.
  { rewrite <- Hnames. apply NoDup_fst_map_to_list. }
  assert (∀ name, name ∈ names ↔ ∃ op, op ∈ h ∧ group_name op = name) as Hcover.
  { intros name. rewrite <- Hnames, <- group_nonempty.
    rewrite list_elem_of_fmap. split.
    - intros ([name' g] & -> & Hin). simpl.
      apply elem_of_map_to_list in Hin. rewrite Hl in Hin.
      destruct (group h name'); congruence.
    - intros Hne. exists (name, group h name). split; [reflexivity|].
      apply elem_of_map_to_list. rewrite Hl.
      destruct (group h name); congruence. }
  split; [|exists names; auto].
  change (map (group h) names) with (group h <$> names).
  rewrite (concat_groups h names Hnd).
  rewrite filter_all; [reflexivity|].
  apply Forall_forall. intros op Hin. apply Hcover. eauto.
Qed.

(** C7, as the code has it. On every history the verifier builds,
    [partitionByKey] returns, and whatever the order of its groups: the groups
    together hold every operation of the history exactly once; there is one
    group for each name some operation is filed under, and it holds the
    operations filed under that name, in their order. An operation is filed
    under its key, and under ["__unknown__"] when it has none: the group of
    the operations without a key is the group of that key. *)
Theorem partitionByKey_cover (ops : list History.Operation) :
  let history := History.convertToPorcupineOperations ops in
  (∃ result, partitionByKey history result)
  ∧ ∀ result, partitionByKey history result →
      concat result ≡ₚ history
      ∧ (∃ names,
           NoDup names
           ∧ (∀ name, name ∈ names ↔ ∃ op, op ∈ history ∧ group_name op = name)
           ∧ result = group history <$> names)
      ∧ ∀ op, op ∈ history →
          group_name op = match key_of op with Some key => key | None => "__unknown__" end.
Proof.
  intros history. pose proof (converted_inputs_are_maps ops) as Hall. split.
  - destruct (partitionByKey_groups_lookup history Hall) as (partitions & Hg & _).
    exists (map_to_list partitions).*2, partitions. split; [exact Hg | reflexivity].
  - intros result Hres.
    destruct (partitionByKey_characterised history result Hall Hres) as [Hc Hn].
    split; [exact Hc|]. split; [exact Hn|].
    intros op _. unfold group_name. destruct (key_of op); reflexivity.
Qed.

(** A [Delete] on the key ["__unknown__"] and a [Get] without a key end up
    in one group, the only one: the group of the operations without a key is
    not an extra one, and the claim of C7 about it fails. *)
Lemma partition_sentinel_clash :
  partitionByKey Examples.clash [Examples.clash]
  ∧ (∀ result, partitionByKey Examples.clash result → result = [Examples.clash])
  ∧ ¬ grouped_by_key [Examples.clash].
Proof.
  assert (∀ result, partitionByKey Examples.clash result ↔ result ≡ₚ [Examples.clash]) as H.
  { intros result. unfold partitionByKey. split.
    - intros (partitions & Hg & Hperm).
      vm_compute in Hg. injection Hg as <-. exact Hperm.
    - intros Hperm. eexists. split; [vm_compute; reflexivity|]. exact Hperm. }
  split; [apply H; reflexivity|]. split.
  - intros result Hres. apply H in Hres. by apply Permutation_singleton_r.
  - intros Hg. destruct (Hg Examples.clash) as [[key Hkey]|Hnone]; [left| |].
    + pose proof (Hkey _ (list_elem_of_here _ _)) as H1.
      pose proof (Hkey _ (list_elem_of_further _ _ _ (list_elem_of_here _ _))) as H2.
      vm_compute in H1, H2. congruence.
    + pose proof (Hnone _ (list_elem_of_here _ _)) as H1.
      vm_compute in H1. discriminate.
Qed.

(** The history of the clash: its one group holds both operations. *)
Lemma partitionByKey_cover_witness :
  concat [Examples.clash] ≡ₚ Examples.clash.
Proof.
  apply (proj2 (partitionByKey_cover [Examples.delete_unknown_op; Examples.keyless_get_op])
           [Examples.clash]).
  exists {["__unknown__" := Examples.clash]}.
  split; vm_compute; reflexivity.
Defined.

End Partition.

(** * The library functions of the model, on the examples of their manuals *)

Section LibraryExamples.
Import Filepath.

Example Clean_examples :
  Clean <$> ["a/c"; "a//c"; "a/c/."; "a/c/b/.."; "/../a/c"; "/../a/b/../././/c"; EmptyString; "/"; "a/../.."]
  = ["a/c"; "a/c"; "a/c"; "a/c"; "/a/c"; "/a/c"; "."; "/"; ".."].
Proof. reflexivity. Qed.

Example Dir_examples :
  Dir <$> ["/foo/bar/baz.js"; "/foo/bar/baz"; "/foo/bar/baz/"; "/dirty//path///"; "dev.txt";
           "../todo.txt"; ".."; "."; "/"; EmptyString]
  = ["/foo/bar"; "/foo/bar"; "/foo/bar/baz"; "/dirty/path"; "."; ".."; "."; "."; "/"; "."].
Proof. reflexivity. Qed.

Example Base_examples :
  Base <$> ["/foo/bar/baz.js"; "/foo/bar/baz"; "/foo/bar/baz/"; "dev.txt"; "../todo.txt";
            ".."; "."; "/"; EmptyString]
  = ["baz.js"; "baz"; "baz"; "dev.txt"; "todo.txt"; ".."; "."; "/"; "."].
Proof. reflexivity. Qed.

Example Ext_examples :
  Ext <$> ["index"; "index.js"; "main.test.js"; "a.b/c"] = [EmptyString; ".js"; ".js"; EmptyString].
Proof. reflexivity. Qed.

Example merged_path_examples :
  (λ first, Join (Dir first) "merged-history.json") <$> ["h1.json"; "logs/run1/h1.json"; "/tmp/h1.json"]
  = ["merged-history.json"; "logs/run1/merged-history.json"; "/tmp/merged-history.json"].
Proof. reflexivity. Qed.

Example ParseInt64_examples :
  Strconv.ParseInt64 <$> ["12"; "-0"; "1.0"; "1e3"; "9223372036854775807"; "9223372036854775808";
                          "-9223372036854775808"]
  = [Some 12%Z; Some 0%Z; None; None; Some 9223372036854775807%Z; None;
     Some (-9223372036854775808)%Z].
Proof. reflexivity. Qed.

Example fits_float64_examples :
  Strconv.fits_float64 <$> ["12"; "-0.5"; "1e308"; "1.7976931348623157e308";
                            "1.7976931348623159e308"; "1e309"; "1e-999"]
  = [true; true; true; true; false; false; true].
Proof. vm_compute. reflexivity. Qed.

End LibraryExamples.

(** * Properties of the loader and the merger *)

Section Loader.
Import History Spec.



(** What the decoder refuses: a document that is not an array, an element
    that is not an object, a number or a map of the wrong kind, a number
    [float64] cannot hold. *)
Example Unmarshal_refuses :
  Unmarshal <$> [JObject []; JString "x";
                 JArray [JString "x"];
                 JArray [JObject [("call", JString "1")]];
                 JArray [JObject [("client_id", JNumber "1.5")]];
                 JArray [JObject [("return_time", JNumber "9223372036854775808")]];
                 JArray [JObject [("input", JArray [])]];
                 JArray [JObject [("output", JObject [("value", JNumber "1e999")])]]]
  = [None; None; None; None; None; None; None; None].
Proof. vm_compute. reflexivity. Qed.

(** What it lets through: [null] for the array, for an element or for a
    field, absent members, members it does not know, names in another case. *)
Example Unmarshal_accepts :
  Unmarshal JNull = Some []
  ∧ Unmarshal (JArray [JNull; JObject []; JObject [("input", JNull); ("note", JNumber "1e999")]])
    = Some [zero; zero; zero]
  ∧ Unmarshal (JArray [JObject [("Call", JNumber "3"); ("RETURN_TIME", JNumber "4")]])
    = Some [{| ClientID := 0; Input := None; Call := 3; Output := None; ReturnTime := 4 |}].
Proof. repeat split; vm_compute; reflexivity. Qed.




End Loader.

Section Merger.
Import History Spec.

Lemma less_strict_weak_order : strict_weak_order less.
Proof.
  unfold less. split.
  - intros a. apply Z.ltb_irrefl.
  - intros a b c. rewrite !Z.ltb_lt. lia.
  - intros a b c. rewrite !Z.ltb_ge. lia.
Qed.

Lemma Sorted_by_call (l : list Operation) : Sorted (not_after less) l → Sorted by_call l.
Proof.
  induction 1 as [|a l _ IH Hhd]; constructor; [exact IH|].
  destruct Hhd as [|b l Hab]; constructor.
  unfold not_after, less in Hab. unfold by_call. apply Z.ltb_ge in Hab. exact Hab.
Qed.

(** The loop of [MergeHistories]: either every file loads and the result is
    the concatenation in the order of the paths, or the first failure is
    returned, with the path it belongs to. *)
Lemma load_all_outcome (w : world) (historyPaths : list string) (allOps : list Operation) :
  match load_all w historyPaths allOps with
  | Ok merged =>
      ∃ loaded,
        Forall2 (λ path ops, loadHistory w path = Ok ops) historyPaths loaded
        ∧ merged = allOps ++ concat loaded
  | Err err =>
      ∃ path cause,
        path ∈ historyPaths ∧ loadHistory w path = Err cause
        ∧ err = Errorf ("error loading " +:+ path +:+ ": ") cause
  end.
Proof.
  revert allOps. induction historyPaths as [|path rest IH]; intros allOps; simpl.
  - exists []. split; [constructor | by rewrite app_nil_r].
  - destruct (loadHistory w path) as [ops|cause] eqn:E.
    + specialize (IH (allOps ++ ops)).
      destruct (load_all w rest (allOps ++ ops)) as [merged|err].
      * destruct IH as (loaded & Hall & ->).
        exists (ops :: loaded). split; [by constructor | by rewrite <- app_assoc].
      * destruct IH as (p & cause & Hin & Hl & ->).
        exists p, cause. split; [by right | done].
    + exists path, cause. split; [by left | done].
Qed.




Lemma not_after_total {A : Type} (less : A → A → bool) :
  strict_weak_order less → Total (not_after less).
Proof.
  intros [Hirr Htrans _] a b. unfold not_after.
  destruct (less b a) eqn:Hba; [|by left].
  destruct (less a b) eqn:Hab; [|by right].
  exfalso. pose proof (Htrans a b a Hab Hba) as H. rewrite Hirr in H. discriminate.
Qed.

Lemma insert_Permutation {A : Type} (less : A → A → bool) (x : A) (l : list A) :
  Examples.insert less x l ≡ₚ x :: l.
Proof.
  induction l as [|y l IH]; simpl; [reflexivity|].
  destruct (less x y); [reflexivity|].
  rewrite IH. apply perm_swap.
Qed.

Lemma insert_Sorted {A : Type} (less : A → A → bool) (x : A) (l : list A) :
  strict_weak_order less →
  Sorted (not_after less) l → Sorted (not_after less) (Examples.insert less x l).
Proof.
  intros Hswo. induction 1 as [|y l Hsorted IH Hhd]; simpl.
  - repeat constructor.
  - destruct (less x y) eqn:Hxy.
    + constructor; [by constructor|]. constructor.
      unfold not_after. destruct (less y x) eqn:Hyx; [|reflexivity].
      rewrite <- (swo_irreflexive less Hswo x). symmetry.
      eapply swo_transitive; eauto.
    + constructor; [exact IH|].
      destruct Hhd as [|z l Hyz]; simpl.
      * constructor. exact Hxy.
      * destruct (less x z); constructor; [exact Hxy | exact Hyz].
Qed.

(** Both sorting functions of the examples honour the contract. *)
Lemma insertion_sort_sorts answer partial :
  sorts_slices (Examples.stub Examples.insertion_sort answer partial).
Proof.
  intros A less l Hswo. simpl. unfold Examples.insertion_sort.
  assert (∀ acc, Sorted (not_after less) acc →
            foldl (λ sorted x, Examples.insert less x sorted) acc l ≡ₚ acc ++ l
            ∧ Sorted (not_after less) (foldl (λ sorted x, Examples.insert less x sorted) acc l))
    as H.
  { induction l as [|x l IH]; intros acc Hacc; simpl.
    - by rewrite app_nil_r.
    - destruct (IH (Examples.insert less x acc) (insert_Sorted less x acc Hswo Hacc))
        as [Hp Hs].
      split; [|exact Hs].
      rewrite Hp, insert_Permutation. simpl. apply Permutation_middle. }
  apply (H []). constructor.
Qed.

Lemma merging_sort_sorts answer partial :
  sorts_slices (Examples.stub Examples.merging_sort answer partial).
Proof.
  intros A less l Hswo. simpl. unfold Examples.merging_sort. split.
  - apply merge_sort_Permutation.
  - apply Sorted_merge_sort, not_after_total, Hswo.
Qed.



End Merger.

(** * Properties of the orchestrator and of the command *)

Section Orchestrator.
Import History Checker Spec.

Ltac run := unfold mbind, M_bind, mret, M_ret, Print, Eprint, emit; simpl.

Lemma log_log (w : world) (a b : list event) : log (log w a) b = log w (a ++ b).
Proof. unfold log. simpl. rewrite <- app_assoc. reflexivity. Qed.

Lemma log_nil (w : world) : log w [] = w.
Proof. destruct w. unfold log. simpl. rewrite app_nil_r. reflexivity. Qed.

Lemma loadHistory_log (w : world) (events : list event) (path : string) :
  loadHistory (log w events) path = loadHistory w path.
Proof. reflexivity. Qed.

Lemma ProcessHistory_not_loaded lib historyPath w cause :
  loadHistory w historyPath = Err cause →
  ProcessHistory lib historyPath w
  = (not_loaded historyPath,
     log w [processing_line historyPath; Stderr [Plain "Error: "; ErrorText cause; Plain nl]]).
Proof.
  intros Hl. unfold ProcessHistory. run.
  rewrite loadHistory_log, Hl. run. rewrite log_log. reflexivity.
Qed.

Lemma ProcessHistory_empty lib historyPath w :
  loadHistory w historyPath = Ok [] →
  ProcessHistory lib historyPath w
  = ({| Path := historyPath; HTMLPath := EmptyString; IsLinearizable := true;
        TotalOps := 0; MaxPartialLen := 0; Result := None |},
     log w [processing_line historyPath;
            Stdout [Colorize [Plain "  ⚪️ No operations found in history"] [ColorYellow];
                    Plain nl]]).
Proof.
  intros Hl. unfold ProcessHistory. run.
  rewrite loadHistory_log, Hl. run. rewrite log_log. reflexivity.
Qed.

(** C9. When the file loads as an empty sequence, [ProcessHistory] returns
    a result with [IsLinearizable = true] and [TotalOps = 0]; it prints two
    lines and nothing else happens: the engine is not called, and the result
    is the same whatever the engine is. *)
Theorem empty_history_is_linearizable (lib : Library) (historyPath : string) (w : world) :
  loadHistory w historyPath = Ok [] →
  IsLinearizable (ProcessHistory lib historyPath w).1 = true
  ∧ TotalOps (ProcessHistory lib historyPath w).1 = 0%Z
  ∧ (∃ line1 line2,
       (ProcessHistory lib historyPath w).2 = log w [Stdout line1; Stdout line2])
  ∧ (engine_called (ProcessHistory lib historyPath w).2 → engine_called w)
  ∧ ∀ lib', ProcessHistory lib' historyPath w = ProcessHistory lib historyPath w.
Proof.
  intros Hl. rewrite (ProcessHistory_empty lib historyPath w Hl). simpl.
  split; [reflexivity|]. split; [reflexivity|]. split; [eauto|]. split.
  - intros (history & timeout & Hin). exists history, timeout.
    apply elem_of_app in Hin as [Hin|Hin]; [exact Hin|].
    apply elem_of_cons in Hin as [Hin|Hin]; [discriminate|].
    apply elem_of_cons in Hin as [Hin|Hin]; [discriminate|].
    inversion Hin.
  - intros lib'. apply ProcessHistory_empty, Hl.
Qed.

(** A file holding the empty array, and a stub engine that would answer
    [Illegal]. *)
Lemma empty_history_is_linearizable_witness :
  IsLinearizable
    (ProcessHistory (Examples.stub Examples.insertion_sort Illegal []) "empty.json"
       (Examples.on_disk [("empty.json", Json (JArray []))])).1 = true
  ∧ TotalOps
      (ProcessHistory (Examples.stub Examples.insertion_sort Illegal []) "empty.json"
         (Examples.on_disk [("empty.json", Json (JArray []))])).1 = 0%Z.
Proof.
  destruct (empty_history_is_linearizable
              (Examples.stub Examples.insertion_sort Illegal []) "empty.json"
              (Examples.on_disk [("empty.json", Json (JArray []))]) eq_refl)
    as (H1 & H2 & _).
  split; [exact H1 | exact H2].
Defined.











Lemma len_nonempty {A} (l : list A) : l ≠ [] → (len l =? 0)%Z = false.
Proof. intros H. apply Z.eqb_neq. unfold len. destruct l; [congruence|]. simpl. lia. Qed.

Lemma len_convert ops : len (convertToPorcupineOperations ops) = len ops.
Proof. unfold len, convertToPorcupineOperations. rewrite length_fmap. reflexivity. Qed.















End Orchestrator.

(** * Further properties of the model: one key at a time *)

Section Footprint.
Import KV Spec Notions.

Implicit Types (st : state) (inp out : object) (input output : iface).

(** The handlers in one form: the verdict is a function of the binding of
    the key, the new state is the old one with that binding kept, set or
    removed, and nothing is written when the verdict is [false]. *)
Lemma Step_on_key input output inp out (key : string) :
  as_map input = Some inp → as_map output = Some out → index inp "key" = Str key →
  ∃ (verdict : option string → bool) (w : write),
    (∀ st, Step (IState st) input output
           = Some (verdict (st !! key), IState (apply_write key w st)))
    ∧ (w ≠ Keep → ∀ binding, verdict binding = true).
Proof.
  intros Hi Ho Hk.
  destruct (as_string (index inp "type")) as [opType|] eqn:Ht.
  2:{ exists (λ _, false), Keep. split; [|congruence].
      intros st. rewrite (Step_typed st _ _ inp out Hi Ho), Ht. reflexivity. }
  destruct (String.eqb opType "Put") eqn:HP.
  { destruct (as_string (index inp "value")) as [value|] eqn:Hv.
    - exists (λ _, true), (Bind value). split; [|reflexivity].
      intros st. rewrite (Step_typed st _ _ inp out Hi Ho), Ht, HP.
      unfold handlePut. rewrite Hk, Hv. reflexivity.
    - exists (λ _, false), Keep. split; [|congruence].
      intros st. rewrite (Step_typed st _ _ inp out Hi Ho), Ht, HP.
      unfold handlePut. rewrite Hk, Hv. reflexivity. }
  destruct (String.eqb opType "Get") eqn:HG.
  { exists (λ binding,
       match as_string (index out "status") with
       | None => false
       | Some outStatus =>
           if negb (String.eqb outStatus "ok") then false
           else match binding with
                | None => is_nil (index out "value")
                | Some expectedValue =>
                    if is_nil (index out "value") then false
                    else match as_string (index out "value") with
                         | Some outValueStr => String.eqb outValueStr expectedValue
                         | None => false
                         end
                end
       end), Keep. split; [|congruence].
    intros st. rewrite (Step_typed st _ _ inp out Hi Ho), Ht, HP, HG.
    unfold handleGet. rewrite Hk. simpl.
    repeat (case_match; simpl; try reflexivity). }
  destruct (String.eqb opType "Delete") eqn:HD.
  - exists (λ _, true), Unbind. split; [|reflexivity].
    intros st. rewrite (Step_typed st _ _ inp out Hi Ho), Ht, HP, HG, HD.
    unfold handleDelete. rewrite Hk. reflexivity.
  - exists (λ _, false), Keep. split; [|congruence].
    intros st. rewrite (Step_typed st _ _ inp out Hi Ho), Ht, HP, HG, HD. reflexivity.
Qed.

Lemma apply_write_lookup_ne (key k : string) (w : write) st :
  k ≠ key → apply_write key w st !! k = st !! k.
Proof.
  intros Hne. destruct w; simpl; [reflexivity| |].
  - by rewrite lookup_insert_ne.
  - by rewrite lookup_delete_ne.
Qed.

Lemma apply_write_lookup (key : string) (w : write) st1 st2 :
  st1 !! key = st2 !! key → apply_write key w st1 !! key = apply_write key w st2 !! key.
Proof.
  intros H. destruct w; simpl; [exact H| |].
  - by rewrite !lookup_insert_eq.
  - by rewrite !lookup_delete_eq.
Qed.

Lemma apply_write_commute (k1 k2 : string) (w1 w2 : write) st :
  k1 ≠ k2 →
  apply_write k1 w1 (apply_write k2 w2 st) = apply_write k2 w2 (apply_write k1 w1 st).
Proof.
  intros Hne. destruct w1, w2; simpl; try reflexivity.
  - by apply insert_insert_ne.
  - by rewrite delete_insert_ne.
  - by rewrite delete_insert_ne.
  - apply delete_delete.
Qed.

(** X1. An operation with a string key reads and writes the binding of that
    key and nothing else: on two states that agree on the key it gets the
    same verdict and leaves states that agree on the key, and every other
    binding of either state is left as it was. *)
Theorem Step_touches_one_key st1 st2 input output inp out (key : string) :
  as_map input = Some inp → as_map output = Some out → index inp "key" = Str key →
  st1 !! key = st2 !! key →
  ∃ legal st1' st2',
    Step (IState st1) input output = Some (legal, IState st1')
    ∧ Step (IState st2) input output = Some (legal, IState st2')
    ∧ st1' !! key = st2' !! key
    ∧ ∀ k, k ≠ key → st1' !! k = st1 !! k ∧ st2' !! k = st2 !! k.
Proof.
  intros Hi Ho Hk Hagree.
  destruct (Step_on_key input output inp out key Hi Ho Hk) as (verdict & w & Hstep & _).
  exists (verdict (st1 !! key)), (apply_write key w st1), (apply_write key w st2).
  split; [apply Hstep|]. split; [rewrite Hagree; apply Hstep|].
  split; [by apply apply_write_lookup|].
  intros k Hne. split; by apply apply_write_lookup_ne.
Qed.

(** A [Get] of ["x"] on two states that differ on ["y"] only. *)
Lemma Step_touches_one_key_witness :
  ∃ legal st1' st2',
    Step (IState {["x" := "1"]})
         (IJson (Object (<["type" := Str "Get"]> {["key" := Str "x"]})))
         (IJson (Object (<["status" := Str "ok"]> {["value" := Str "1"]})))
    = Some (legal, IState st1')
    ∧ Step (IState (<["y" := "2"]> {["x" := "1"]}))
           (IJson (Object (<["type" := Str "Get"]> {["key" := Str "x"]})))
           (IJson (Object (<["status" := Str "ok"]> {["value" := Str "1"]})))
      = Some (legal, IState st2')
    ∧ st1' !! "x" = st2' !! "x"
    ∧ ∀ k, k ≠ "x" → st1' !! k = ({["x" := "1"]} : state) !! k
                     ∧ st2' !! k = (<["y" := "2"]> {["x" := "1"]} : state) !! k.
Proof.
  apply (Step_touches_one_key {["x" := "1"]} (<["y" := "2"]> {["x" := "1"]}) _ _
           (<["type" := Str "Get"]> {["key" := Str "x"]})
           (<["status" := Str "ok"]> {["value" := Str "1"]}) "x");
    reflexivity.
Defined.

(** X2. Two operations on different keys commute: replayed in either order
    from any state they get the same verdicts and leave the same state. *)
Theorem different_keys_commute st (a b : Operation) (ka kb : string) :
  keyed ka a → keyed kb b → ka ≠ kb →
  ∃ la lb s',
    replay (IState st) [a; b] = Some ([la; lb], s')
    ∧ replay (IState st) [b; a] = Some ([lb; la], s').
Proof.
  intros (ia & Hia & [oa Hoa] & Hka) (ib & Hib & [ob Hob] & Hkb) Hne.
  destruct (Step_on_key _ _ ia oa ka Hia Hoa Hka) as (va & wa & Ha & _).
  destruct (Step_on_key _ _ ib ob kb Hib Hob Hkb) as (vb & wb & Hb & _).
  exists (va (st !! ka)), (vb (st !! kb)),
    (IState (apply_write kb wb (apply_write ka wa st))).
  split.
  - simpl. rewrite Ha. simpl. rewrite Hb. simpl.
    rewrite (apply_write_lookup_ne ka kb wa st) by congruence. reflexivity.
  - simpl. rewrite Hb. simpl. rewrite Ha. simpl.
    rewrite (apply_write_lookup_ne kb ka wb st) by exact Hne.
    rewrite (apply_write_commute ka kb wa wb st Hne). reflexivity.
Qed.

(** A [Put] and a [Delete] of ["x"] and ["y"], in both orders. *)
Lemma different_keys_commute_witness :
  ∃ la lb s',
    replay (IState {["x" := "0"]})
      (History.convertToPorcupineOperations
         [Examples.put_op 1 "a";
          {| History.ClientID := 2;
             History.Input := Some (<["type" := Str "Delete"]> {["key" := Str "y"]});
             History.Call := 7; History.Output := None; History.ReturnTime := 8 |}])
    = Some ([la; lb], s')
    ∧ replay (IState {["x" := "0"]})
        (History.convertToPorcupineOperations
           [{| History.ClientID := 2;
               History.Input := Some (<["type" := Str "Delete"]> {["key" := Str "y"]});
               History.Call := 7; History.Output := None; History.ReturnTime := 8 |};
            Examples.put_op 1 "a"])
      = Some ([lb; la], s').
Proof.
  apply (different_keys_commute {["x" := "0"]} _ _ "x" "y").
  - eexists. split; [reflexivity|]. split; [eexists; reflexivity | reflexivity].
  - eexists. split; [reflexivity|]. split; [eexists; reflexivity | reflexivity].
  - discriminate.
Defined.

Lemma handleGet_verdict st inp out (key : string) :
  index inp "key" = Str key →
  (handleGet st inp out).1 = true ↔
    index out "status" = Str "ok"
    ∧ match st !! key with
      | None => index out "value" = Nil
      | Some stored => index out "value" = Str stored
      end.
Proof.
  intros Hk. unfold handleGet. rewrite Hk. simpl.
  destruct (as_string (index out "status")) as [status|] eqn:Hs; simpl.
  2:{ split; [discriminate|]. intros [E _]. rewrite E in Hs. discriminate. }
  apply as_string_Str in Hs. rewrite Hs.
  destruct (String.eqb status "ok") eqn:Hok; simpl.
  2:{ split; [discriminate|]. intros [E _]. inversion E; subst. discriminate. }
  apply eqb_true in Hok. subst status.
  destruct (st !! key) as [stored|]; simpl.
  - destruct (index out "value"); simpl;
      try (split; [discriminate | intros [_ ?]; congruence]).
    rewrite eqb_true. split; [intros ->; auto | intros [_ ?]; congruence].
  - rewrite is_nil_Nil. tauto.
Qed.

(** X3. A [Get] sees the last write of its key. After a well-formed
    [Put(key, value)] on any state, a [Get(key)] is legal exactly when its
    output has status ["ok"] and the value [value]; after a well-formed
    [Delete(key)], exactly when it has status ["ok"] and no value. *)
Theorem Get_sees_last_write st (write_input get_input output : iface)
    (winp ginp out : object) (key : string) :
  as_map write_input = Some winp → as_map get_input = Some ginp →
  as_map output = Some out →
  index winp "key" = Str key →
  index ginp "type" = Str "Get" → index ginp "key" = Str key →
  (∀ value, index winp "type" = Str "Put" → index winp "value" = Str value →
     ∃ legal,
       replay (IState st)
         [{| ClientId := 0; Input := write_input; Call := 0; Output := INilMap; Return := 1 |};
          {| ClientId := 0; Input := get_input; Call := 2; Output := output; Return := 3 |}]
       = Some ([true; legal], IState (<[key := value]> st))
       ∧ (legal = true ↔ index out "status" = Str "ok" ∧ index out "value" = Str value))
  ∧ (index winp "type" = Str "Delete" →
     ∃ legal,
       replay (IState st)
         [{| ClientId := 0; Input := write_input; Call := 0; Output := INilMap; Return := 1 |};
          {| ClientId := 0; Input := get_input; Call := 2; Output := output; Return := 3 |}]
       = Some ([true; legal], IState (delete key st))
       ∧ (legal = true ↔ index out "status" = Str "ok" ∧ index out "value" = Nil)).
Proof.
  intros Hw Hg Ho Hkw Htg Hkg.
  assert (∀ st', Step (IState st') get_input output
                 = Some ((handleGet st' ginp out).1, IState st')) as Hget.
  { intros st'. rewrite (Step_typed st' _ _ ginp out Hg Ho), Htg. simpl.
    pose proof (handleGet_state st' ginp out) as Hs.
    destruct (handleGet st' ginp out) as [b m]. simpl in *. by subst. }
  split.
  - intros value Ht Hv.
    exists (handleGet (<[key := value]> st) ginp out).1. split.
    + cbn [replay Input Output].
      rewrite (Step_typed st write_input INilMap winp ∅ Hw eq_refl), Ht. simpl.
      unfold handlePut. rewrite Hkw, Hv. simpl. rewrite Hget. reflexivity.
    + rewrite (handleGet_verdict _ ginp out key Hkg), lookup_insert_eq. reflexivity.
  - intros Ht.
    exists (handleGet (delete key st) ginp out).1. split.
    + cbn [replay Input Output].
      rewrite (Step_typed st write_input INilMap winp ∅ Hw eq_refl), Ht. simpl.
      unfold handleDelete. rewrite Hkw. simpl. rewrite Hget. reflexivity.
    + rewrite (handleGet_verdict _ ginp out key Hkg), lookup_delete_eq. reflexivity.
Qed.

(** A [Put] of ["1"] under ["x"], then a [Get] that returns ["1"]. *)
Lemma Get_sees_last_write_witness :
  ∃ legal,
    replay (IState {["x" := "0"]})
      [{| ClientId := 0;
          Input := IJson (Object (<["type" := Str "Put"]>
                                    (<["key" := Str "x"]> {["value" := Str "1"]})));
          Call := 0; Output := INilMap; Return := 1 |};
       {| ClientId := 0;
          Input := IJson (Object (<["type" := Str "Get"]> {["key" := Str "x"]}));
          Call := 2;
          Output := IJson (Object (<["status" := Str "ok"]> {["value" := Str "1"]}));
          Return := 3 |}]
    = Some ([true; legal], IState (<["x" := "1"]> {["x" := "0"]}))
    ∧ (legal = true ↔
         index (<["status" := Str "ok"]> {["value" := Str "1"]}) "status" = Str "ok"
         ∧ index (<["status" := Str "ok"]> {["value" := Str "1"]}) "value" = Str "1").
Proof.
  destruct (Get_sees_last_write {["x" := "0"]}
                  (IJson (Object (<["type" := Str "Put"]>
                                    (<["key" := Str "x"]> {["value" := Str "1"]}))))
                  (IJson (Object (<["type" := Str "Get"]> {["key" := Str "x"]})))
                  (IJson (Object (<["status" := Str "ok"]> {["value" := Str "1"]})))
                  (<["type" := Str "Put"]> (<["key" := Str "x"]> {["value" := Str "1"]}))
                  (<["type" := Str "Get"]> {["key" := Str "x"]})
                  (<["status" := Str "ok"]> {["value" := Str "1"]}) "x")
    as [HPut _]; [reflexivity..|].
  apply (HPut "1"); reflexivity.
Defined.

(** X4. [Step] writes in place: on the store, the map it returns is the map
    it was given, no other map is touched, and the content of that map
    changes as the content-level [Step] says. The engine's older handles on
    the state therefore see every legal [Put] and [Delete]. *)
Theorem Step_writes_in_place (σ σ' : Shared.store) (ref ref' : Shared.loc)
    input output (legal : bool) :
  Shared.Step σ ref input output = Some (legal, ref', σ') →
  ref' = ref
  ∧ (∀ l, l ≠ ref → σ' !! l = σ !! l)
  ∧ Step (IState (Shared.content σ ref)) input output
    = Some (legal, IState (Shared.content σ' ref)).
Proof.
  intros H. pose proof (Shared_Step_refines σ ref input output) as R.
  rewrite H in R.
  destruct (Step (IState (Shared.content σ ref)) input output) as [[legal' s']|];
    [|contradiction].
  destruct R as (-> & -> & -> & Hother). auto.
Qed.

(** A [Put] on a store of two states: the second is left alone. *)
Lemma Step_writes_in_place_witness :
  1%positive = 1%positive
  ∧ (∀ l, l ≠ 1%positive →
       (<[1%positive := <["x" := "1"]> ∅]> {[1%positive := ∅; 2%positive := {["y" := "2"]}]}
          : Shared.store) !! l
       = ({[1%positive := ∅; 2%positive := {["y" := "2"]}]} : Shared.store) !! l)
  ∧ Step (IState (Shared.content {[1%positive := ∅; 2%positive := {["y" := "2"]}]} 1%positive))
         (IJson (Object (<["type" := Str "Put"]> (<["key" := Str "x"]> {["value" := Str "1"]}))))
         INilMap
    = Some (true,
            IState (Shared.content
                      (<[1%positive := <["x" := "1"]> ∅]>
                         {[1%positive := ∅; 2%positive := {["y" := "2"]}]}) 1%positive)).
Proof.
  apply (Step_writes_in_place {[1%positive := ∅; 2%positive := {["y" := "2"]}]} _ 1%positive _
           (IJson (Object (<["type" := Str "Put"]> (<["key" := Str "x"]> {["value" := Str "1"]}))))
           INilMap true).
  reflexivity.
Defined.

End Footprint.

(** * Further properties of the partitioning and of the conversion *)

Section PartitionMore.
Import KV Spec.

(** X5. On every history the verifier builds, [partitionByKey] returns no
    empty group and at most as many groups as there are operations, none for
    the empty history; two operations filed under the same name are in one
    group. *)
Theorem partitions_are_nonempty (ops : list History.Operation) (result : list (list Operation)) :
  partitionByKey (History.convertToPorcupineOperations ops) result →
  (∀ g, g ∈ result → g ≠ [])
  ∧ (length result ≤ length ops)%nat
  ∧ ∀ a b, a ∈ History.convertToPorcupineOperations ops →
           b ∈ History.convertToPorcupineOperations ops →
           group_name a = group_name b →
           ∃ g, g ∈ result ∧ a ∈ g ∧ b ∈ g.
Proof.
  intros Hres.
  pose proof (converted_inputs_are_maps ops) as Hall.
  destruct (partitionByKey_characterised _ result Hall Hres)
    as (_ & names & Hnd & Hcover & ->).
  set (h := History.convertToPorcupineOperations ops) in *.
  split; [|split].
  - intros g Hg. apply list_elem_of_fmap in Hg as (name & -> & Hin).
    apply group_nonempty, Hcover, Hin.
  - rewrite length_fmap.
    replace (length ops) with (length (group_name <$> h))
      by (unfold h, History.convertToPorcupineOperations; by rewrite !length_fmap).
    apply submseteq_length, NoDup_submseteq; [exact Hnd|].
    intros name Hin. apply Hcover in Hin as (op & Hop & <-).
    apply list_elem_of_fmap. eauto.
  - intros a b Ha Hb Hab. exists (group h (group_name a)). split; [|split].
    + apply list_elem_of_fmap. exists (group_name a). split; [reflexivity|].
      apply Hcover. eauto.
    + unfold group. apply list_elem_of_filter. auto.
    + unfold group. apply list_elem_of_filter. auto.
Qed.

(** The history of the clash, whose two operations share the one group. *)
Lemma partitions_are_nonempty_witness :
  (∀ g, g ∈ [Examples.clash] → g ≠ [])
  ∧ (length [Examples.clash] ≤ 2)%nat.
Proof.
  destruct (partitions_are_nonempty
              [Examples.delete_unknown_op; Examples.keyless_get_op] [Examples.clash])
    as (H1 & H2 & _).
  - exists {["__unknown__" := Examples.clash]}. split; vm_compute; reflexivity.
  - split; [exact H1 | exact H2].
Defined.

Lemma to_iface_inj (m m' : option object) : to_iface m = to_iface m' → m = m'.
Proof. destruct m, m'; simpl; congruence. Qed.

(** X6. [convertToPorcupineOperations] maps record by record and loses
    nothing: the result has one operation per record, in the same order, and
    two histories with the same result are the same history. *)
Theorem convert_is_faithful (ops ops' : list History.Operation) :
  length (History.convertToPorcupineOperations ops) = length ops
  ∧ (∀ i op, ops !! i = Some op →
       ∃ pop, History.convertToPorcupineOperations ops !! i = Some pop
              ∧ ClientId pop = History.ClientID op ∧ Call pop = History.Call op
              ∧ Return pop = History.ReturnTime op
              ∧ Input pop = to_iface (History.Input op)
              ∧ Output pop = to_iface (History.Output op))
  ∧ (History.convertToPorcupineOperations ops = History.convertToPorcupineOperations ops'
     → ops = ops').
Proof.
  unfold History.convertToPorcupineOperations. split; [apply length_fmap|]. split.
  - intros i op Hi. eexists. rewrite list_lookup_fmap, Hi. simpl.
    split; [reflexivity|]. auto.
  - revert ops'. induction ops as [|op ops IH]; intros [|op' ops'] H; simpl in H;
      try discriminate; [reflexivity|].
    injection H as Hc Hi Ht Ho Hr Hrest.
    apply to_iface_inj in Hi, Ho.
    rewrite (IH ops' Hrest). destruct op, op'. simpl in *. congruence.
Qed.

End PartitionMore.

(** * Further properties of the orchestrator and of the command *)

Section OrchestratorMore.
Import History Checker Spec Notions.

Ltac run := unfold mbind, M_bind, mret, M_ret, Print, Eprint, emit; simpl.

Lemma inner_max_bounds (partition : list (list Z)) (acc : Z) :
  let r := foldl (λ m (lin : list Z), if (m <? len lin)%Z then len lin else m) acc partition in
  (acc ≤ r)%Z
  ∧ (∀ lin, lin ∈ partition → (len lin ≤ r)%Z)
  ∧ (r = acc ∨ ∃ lin, lin ∈ partition ∧ r = len lin).
Proof.
  revert acc. induction partition as [|lin partition IH]; intros acc; simpl.
  - split; [lia|]. split; [inversion 1 | by left].
  - specialize (IH (if (acc <? len lin)%Z then len lin else acc)).
    simpl in IH. destruct IH as (Hle & Hall & Hex).
    destruct (Z.ltb_spec acc (len lin)) as [Hlt|Hge].
    + split; [lia|]. split.
      * intros lin' Hin. apply elem_of_cons in Hin as [->|Hin]; [lia | by apply Hall].
      * right. destruct Hex as [->|(lin' & Hin & ->)].
        -- exists lin. split; [left | reflexivity].
        -- exists lin'. split; [by right | reflexivity].
    + split; [lia|]. split.
      * intros lin' Hin. apply elem_of_cons in Hin as [->|Hin]; [lia | by apply Hall].
      * destruct Hex as [->|(lin' & Hin & ->)]; [by left|].
        right. exists lin'. split; [by right | reflexivity].
Qed.

Lemma outer_max_bounds (partitions : list (list (list Z))) (acc : Z) :
  let r := foldl (λ m partition,
                    foldl (λ m (lin : list Z), if (m <? len lin)%Z then len lin else m)
                          m partition) acc partitions in
  (acc ≤ r)%Z
  ∧ (∀ partition lin, partition ∈ partitions → lin ∈ partition → (len lin ≤ r)%Z)
  ∧ (r = acc ∨ ∃ partition lin, partition ∈ partitions ∧ lin ∈ partition ∧ r = len lin).
Proof.
  revert acc. induction partitions as [|partition partitions IH]; intros acc; simpl.
  - split; [lia|]. split; [inversion 1 | by left].
  - pose proof (inner_max_bounds partition acc) as Hinner. simpl in Hinner.
    destruct Hinner as (Hle1 & Hall1 & Hex1).
    specialize (IH (foldl (λ m (lin : list Z), if (m <? len lin)%Z then len lin else m)
                          acc partition)).
    simpl in IH. destruct IH as (Hle & Hall & Hex).
    split; [lia|]. split.
    + intros partition' lin Hp Hin. apply elem_of_cons in Hp as [->|Hp].
      * specialize (Hall1 lin Hin). lia.
      * by apply (Hall partition').
    + destruct Hex as [->|(partition' & lin & Hp & Hin & ->)].
      * destruct Hex1 as [->|(lin & Hin & ->)]; [by left|].
        right. exists partition, lin. split; [left | auto].
      * right. exists partition', lin. split; [by right | auto].
Qed.

(** X7. [calculateMaxPartialLength] returns the length of a longest partial
    linearization over all partitions: no partial linearization is longer,
    and the value is 0 (when there is none, or only empty ones) or the length
    of one of them. *)
Theorem calculateMaxPartialLength_is_max (info : LinearizationInfo) :
  (0 ≤ calculateMaxPartialLength info)%Z
  ∧ (∀ partition lin,
       partition ∈ PartialLinearizations info → lin ∈ partition →
       (len lin ≤ calculateMaxPartialLength info)%Z)
  ∧ (calculateMaxPartialLength info = 0%Z
     ∨ ∃ partition lin,
         partition ∈ PartialLinearizations info ∧ lin ∈ partition
         ∧ calculateMaxPartialLength info = len lin).
Proof. apply (outer_max_bounds (PartialLinearizations info) 0). Qed.

(** Two partitions, the longest partial linearization in the second. *)
Lemma calculateMaxPartialLength_is_max_witness :
  (len [4; 5; 6] ≤ calculateMaxPartialLength
                     {| PartialLinearizations := [[[1]; [2; 3]]; [[4; 5; 6]; []]] |})%Z.
Proof.
  apply (proj1 (proj2 (calculateMaxPartialLength_is_max
                         {| PartialLinearizations := [[[1]; [2; 3]]; [[4; 5; 6]; []]] |}))
           [[4; 5; 6]; []] [4; 5; 6])%Z.
  - right. left.
  - left.
Defined.

Lemma checks_app (a b : list event) : checks (a ++ b) = checks a ++ checks b.
Proof. unfold checks. apply omap_app. Qed.

(** The events of the report contain no call of the engine. *)
Lemma printResults_effect (r : CheckResult) (totalOps maxPartialLength : Z) (w : world) :
  ∃ events, checks events = []
            ∧ printResults r totalOps maxPartialLength w = (tt, log w events).
Proof.
  unfold printResults.
  destruct r; run; destruct (0 <? maxPartialLength)%Z; run; rewrite !log_log;
    eexists; (split; [|reflexivity]); reflexivity.
Qed.

(** [generateVisualization] returns the path of the page whatever happens,
    and writes no file but the page. *)
Lemma generateVisualization_effect lib historyPath model info (w : world) :
  (generateVisualization lib historyPath model info w).1 = page_of historyPath
  ∧ ∃ events,
      checks events = []
      ∧ ((generateVisualization lib historyPath model info w).2 = log w events
         ∨ ((page_of historyPath ∉ unwritable w)
            ∧ (generateVisualization lib historyPath model info w).2
              = log {| files := <[page_of historyPath := Garbled]> (files w);
                       unwritable := unwritable w; trace := trace w |} events)).
Proof.
  unfold generateVisualization, store, page_of. run.
  case_bool_decide; run.
  - split; [reflexivity|]. eexists. split; [|left; reflexivity]. reflexivity.
  - destruct (Visualize lib model info); run; rewrite log_log;
      (split; [reflexivity|]); eexists; (split; [|right; split; [assumption|reflexivity]]);
      reflexivity.
Qed.

(** [ProcessHistory] once the file has loaded with operations in it. *)
Lemma ProcessHistory_effect lib historyPath w ops :
  loadHistory w historyPath = Ok ops → ops ≠ [] →
  (ProcessHistory lib historyPath w).1
  = checked historyPath (page_of historyPath) (len ops) (answer_of lib ops)
  ∧ unwritable (ProcessHistory lib historyPath w).2 = unwritable w
  ∧ (files (ProcessHistory lib historyPath w).2 = files w
     ∨ ((page_of historyPath ∉ unwritable w)
        ∧ files (ProcessHistory lib historyPath w).2
          = <[page_of historyPath := Garbled]> (files w)))
  ∧ checks (trace (ProcessHistory lib historyPath w).2)
    = checks (trace w) ++ [(convertToPorcupineOperations ops, timeout)].
Proof.
  intros Hl Hne. unfold ProcessHistory. run.
  rewrite loadHistory_log, Hl, (len_nonempty ops Hne). run.
  rewrite log_log. simpl. rewrite len_convert. fold (answer_of lib ops).
  destruct (answer_of lib ops) as [r info] eqn:Ha. simpl.
  set (w0 := log w _).
  destruct (generateVisualization_effect lib historyPath KV.createKVModel info w0)
    as (Hpath & ev1 & Hc1 & Hw1).
  destruct (generateVisualization lib historyPath KV.createKVModel info w0) as [htmlPath w1].
  simpl in Hpath, Hw1. subst htmlPath.
  destruct (printResults_effect r (len ops) (calculateMaxPartialLength info) w1)
    as (ev2 & Hc2 & ->).
  simpl. split; [reflexivity|].
  destruct Hw1 as [->|[Hw ->]]; simpl;
    (split; [reflexivity|]); (split; [auto|]);
    rewrite !checks_app, Hc1, Hc2, !app_nil_r; reflexivity.
Qed.








(** X11. [ProcessHistory] calls the engine at most once: exactly once, on
    the converted operations and with a timeout of thirty seconds, when the
    file loads with operations in it, and not at all otherwise. *)
Theorem engine_called_once (lib : Library) (historyPath : string) (w : world) :
  checks (trace (ProcessHistory lib historyPath w).2)
  = checks (trace w)
    ++ match loadHistory w historyPath with
       | Ok (op :: ops) =>
           [(convertToPorcupineOperations (op :: ops), 30000000000%Z)]
       | _ => []
       end.
Proof.
  destruct (loadHistory w historyPath) as [[|op ops]|cause] eqn:Hl.
  - rewrite (ProcessHistory_empty lib historyPath w Hl). simpl.
    rewrite checks_app. reflexivity.
  - destruct (ProcessHistory_effect lib historyPath w (op :: ops) Hl) as (_ & _ & _ & ->);
      [discriminate | reflexivity].
  - rewrite (ProcessHistory_not_loaded lib historyPath w cause Hl). simpl.
    rewrite checks_app. reflexivity.
Qed.

(** X12. The result of [ProcessHistory] does not depend on the rendering:
    two runs on worlds that hold the same history file, with engines that
    answer alike, return the same [HistoryResult], page path included,
    whether or not the page could be created and rendered. *)
Theorem result_independent_of_rendering (lib lib' : Library) (historyPath : string)
    (w w' : world) :
  files w !! historyPath = files w' !! historyPath →
  CheckOperationsVerbose lib = CheckOperationsVerbose lib' →
  (ProcessHistory lib historyPath w).1 = (ProcessHistory lib' historyPath w').1.
Proof.
  intros Hfile Hengine.
  assert (loadHistory w' historyPath = loadHistory w historyPath) as Hload
    by (unfold loadHistory, ReadFile; rewrite Hfile; reflexivity).
  destruct (loadHistory w historyPath) as [[|op ops]|cause] eqn:Hl.
  - rewrite (ProcessHistory_empty lib historyPath w Hl).
    rewrite (ProcessHistory_empty lib' historyPath w' Hload). reflexivity.
  - destruct (ProcessHistory_effect lib historyPath w (op :: ops) Hl) as [-> _];
      [discriminate|].
    destruct (ProcessHistory_effect lib' historyPath w' (op :: ops) Hload) as [-> _];
      [discriminate|].
    unfold answer_of. rewrite Hengine. reflexivity.
  - rewrite (ProcessHistory_not_loaded lib historyPath w cause Hl).
    rewrite (ProcessHistory_not_loaded lib' historyPath w' cause Hload). reflexivity.
Qed.

(** The same history, once where the page is made and once where it can
    be neither created nor rendered. *)
Lemma result_independent_of_rendering_witness :
  (ProcessHistory (Examples.stub Examples.insertion_sort Ok_ []) "history.json"
     Examples.one_put).1
  = (ProcessHistory (Cases.blind (Examples.stub Examples.insertion_sort Ok_ [])) "history.json"
       (Cases.read_only ["history.html"] Examples.one_put)).1.
Proof.
  apply result_independent_of_rendering; reflexivity.
Defined.


End OrchestratorMore.

(** * Writing a history and reading it back *)

Section RoundTrip.
Import History Spec Notions.

Lemma digit_pretty_N_char (d : N) :
  (d < 10)%N → Strconv.digit (pretty_N_char d) = Some (Z.of_N d).
Proof.
  intros Hd.
  assert (d = 0 ∨ d = 1 ∨ d = 2 ∨ d = 3 ∨ d = 4 ∨ d = 5 ∨ d = 6 ∨ d = 7 ∨ d = 8 ∨ d = 9)%N
    as H by lia.
  repeat (destruct H as [->|H]; [reflexivity|]). subst. reflexivity.
Qed.

(** Reading the digits that [pretty] wrote in front of [s]. *)
Lemma digits_pretty_N_go (x : N) (s : string) :
  ∃ k : Z,
    (0 ≤ k)%Z ∧ ((0 < x)%N → (0 < k)%Z)
    ∧ ∀ acc len, Strconv.digits (pretty_N_go x s) acc len
                 = Strconv.digits s (acc * 10 ^ k + Z.of_N x)%Z (len + k)%Z.
Proof.
  revert s. induction (N.lt_wf_0 x) as [x _ IH]; intros s.
  destruct (decide (x = 0)%N) as [->|Hx].
  - exists 0%Z. split; [lia|]. split; [lia|].
    intros acc len. rewrite pretty_N_go_0. f_equal; lia.
  - assert (0 < x)%N as Hpos by lia.
    destruct (IH (x `div` 10)%N (N.div_lt x 10 Hpos eq_refl)
                 (String (pretty_N_char (x `mod` 10)) s)) as (k & Hk & _ & Hd).
    exists (k + 1)%Z. split; [lia|]. split; [lia|].
    intros acc len. rewrite pretty_N_go_step by exact Hpos. rewrite Hd.
    cbn [Strconv.digits].
    rewrite digit_pretty_N_char by (apply N.mod_lt; lia).
    assert (10 * (acc * 10 ^ k + Z.of_N (x `div` 10)) + Z.of_N (x `mod` 10)
            = acc * 10 ^ (k + 1) + Z.of_N x)%Z as ->.
    { rewrite Z.pow_add_r by lia.
      rewrite N2Z.inj_mod, N2Z.inj_div.
      pose proof (Z.div_mod (Z.of_N x) 10 ltac:(lia)) as Hdm.
      change (Z.of_N 10) with 10%Z. lia. }
    f_equal; lia.
Qed.

Lemma signed_pretty_N_go (x : N) :
  Strconv.signed (pretty_N_go x EmptyString) = (false, pretty_N_go x EmptyString).
Proof.
  unfold Strconv.signed.
  destruct (pretty_N_go x EmptyString) as [|c rest] eqn:E; [reflexivity|].
  destruct (Ascii.eqb_spec c "-"%char) as [->|Hne].
  - exfalso. by apply (pretty_N_go_ne_dash x EmptyString rest).
  - destruct c as [[] [] [] [] [] [] [] []]; try reflexivity. congruence.
Qed.

(** An [int64] written in decimal is read back by [strconv.ParseInt]. *)
Lemma ParseInt64_pretty (z : Z) : int64 z → Strconv.ParseInt64 (pretty z) = Some z.
Proof.
  unfold int64. intros Hz. destruct z as [|p|p].
  - reflexivity.
  - unfold pretty, pretty_Z, pretty, pretty_positive, pretty, pretty_N.
    rewrite decide_False by discriminate.
    unfold Strconv.ParseInt64. rewrite signed_pretty_N_go.
    destruct (digits_pretty_N_go (N.pos p) EmptyString) as (k & _ & Hk & ->).
    cbn [Strconv.digits].
    replace (0 <? 0 + k)%Z with true by (symmetry; apply Z.ltb_lt; lia).
    replace (- 2 ^ 63 <=? 0 * 10 ^ k + Z.of_N (N.pos p))%Z with true
      by (symmetry; apply Z.leb_le; simpl; lia).
    replace (0 * 10 ^ k + Z.of_N (N.pos p) <? 2 ^ 63)%Z with true
      by (symmetry; apply Z.ltb_lt; simpl; lia).
    simpl. f_equal; lia.
  - unfold pretty, pretty_Z, pretty, pretty_positive, pretty, pretty_N.
    rewrite decide_False by discriminate.
    unfold Strconv.ParseInt64.
    change (Strconv.signed ("-" +:+ pretty_N_go (N.pos p) EmptyString))
      with (true, pretty_N_go (N.pos p) EmptyString).
    destruct (digits_pretty_N_go (N.pos p) EmptyString) as (k & _ & Hk & ->).
    cbn [Strconv.digits].
    replace (0 <? 0 + k)%Z with true by (symmetry; apply Z.ltb_lt; lia).
    replace (- 2 ^ 63 <=? - (0 * 10 ^ k + Z.of_N (N.pos p)))%Z with true
      by (symmetry; apply Z.leb_le; simpl; lia).
    replace (- (0 * 10 ^ k + Z.of_N (N.pos p)) <? 2 ^ 63)%Z with true
      by (symmetry; apply Z.ltb_lt; simpl; lia).
    simpl. f_equal; lia.
Qed.

Lemma fold_insert_lookup (l : list (string * any)) (acc : object) (k : string) :
  NoDup l.*1 →
  foldl (λ m kv, <[kv.1 := kv.2]> m) acc l !! k
  = match (list_to_map l : object) !! k with Some v => Some v | None => acc !! k end.
Proof.
  revert acc. induction l as [|[k0 v0] l IH]; intros acc Hnd; simpl.
  - rewrite lookup_empty. reflexivity.
  - apply NoDup_cons in Hnd as [Hnotin Hnd]. rewrite (IH _ Hnd).
    destruct (decide (k = k0)) as [->|Hne].
    + rewrite (not_elem_of_list_to_map_1 l k0 Hnotin), !lookup_insert_eq. reflexivity.
    + rewrite !lookup_insert_ne by congruence. reflexivity.
Qed.

Lemma fold_insert_list_to_map (l : list (string * any)) :
  NoDup l.*1 → foldl (λ m kv, <[kv.1 := kv.2]> m) (∅ : object) l = list_to_map l.
Proof.
  intros Hnd. apply map_eq. intros k. rewrite (fold_insert_lookup l ∅ k Hnd).
  rewrite lookup_empty. destruct (list_to_map l !! k); reflexivity.
Qed.

(** Decoding the members of an object one by one. *)
Lemma into_map_members (members : list (string * json)) (l : list (string * any))
    (acc : object) :
  Forall2 (λ member kv, member.1 = kv.1 ∧ Json.to_any member.2 = Some kv.2) members l →
  Json.into_map acc members = Some (foldl (λ m kv, <[kv.1 := kv.2]> m) acc l).
Proof.
  unfold Json.into_map. intros H. revert acc.
  induction H as [|member kv members l [Hk Hv] _ IH]; intros acc; simpl; [reflexivity|].
  rewrite Hv. simpl. rewrite Hk. apply IH.
Qed.

Lemma to_any_JObject (members : list (string * json)) :
  Json.to_any (JObject members) = Object <$> Json.into_map ∅ members.
Proof.
  simpl. f_equal. unfold Json.into_map.
  generalize (Some (∅ : object)) as acc.
  induction members as [|[name j] members IH]; intros acc; simpl; [reflexivity|].
  apply IH.
Qed.

(** The members written for a map are read back as that map, once its
    values are. *)
Lemma object_round_trip (fields : object) :
  (∀ name v, fields !! name = Some v → Json.to_any (Json.of_any v) = Some v) →
  Json.into_map ∅ (@merge_sort _ Json.by_name Json.by_name_dec (map_to_list (Json.of_any <$> fields)))
  = Some fields.
Proof.
  intros Hvalues.
  assert (@merge_sort _ Json.by_name Json.by_name_dec (map_to_list (Json.of_any <$> fields))
          ≡ₚ prod_map id Json.of_any <$> map_to_list fields) as Hperm
    by (rewrite <- map_to_list_fmap; apply merge_sort_Permutation).
  apply Permutation_map_inv in Hperm as (l & Hsorted & Hl).
  rewrite Hsorted.
  assert (NoDup l.*1) as Hnd by (rewrite <- Hl; apply NoDup_fst_map_to_list).
  rewrite (into_map_members _ l ∅).
  - rewrite (fold_insert_list_to_map l Hnd). f_equal.
    rewrite (list_to_map_proper l (map_to_list fields) Hnd (Permutation_sym Hl)).
    apply list_to_map_to_list.
  - change (map (prod_map id Json.of_any) l) with (prod_map id Json.of_any <$> l).
    apply Forall2_fmap_l, Forall_Forall2_diag, Forall_forall.
    intros [name v] Hin. simpl. split; [reflexivity|].
    apply (Hvalues name). apply elem_of_map_to_list. by rewrite Hl.
Qed.

(** Every value [encoding/json] can have produced is read back from what
    [json.Marshal] writes for it. *)
Lemma of_any_to_any (v : any) : representable v → Json.to_any (Json.of_any v) = Some v.
Proof.
  induction 1 as [|b|lit Hfit|s|items _ IH|fields _ IH]; simpl; try reflexivity.
  - rewrite Hfit. reflexivity.
  - replace (mapM Json.to_any (map Json.of_any items)) with (Some items); [reflexivity|].
    symmetry. apply mapM_Some.
    change (map Json.of_any items) with (Json.of_any <$> items).
    apply Forall2_fmap_l, Forall_Forall2_diag, Forall_forall. exact IH.
  - change (Json.to_any (JObject (@merge_sort _ Json.by_name Json.by_name_dec
              (map_to_list (Json.of_any <$> fields)))) = Some (Object fields)).
    rewrite to_any_JObject, (object_round_trip fields IH). reflexivity.
Qed.

Lemma store_map_Marshal_map (current m : option object) :
  current = None → representable_map m →
  store_map current (Marshal_map m) = Some m.
Proof.
  intros -> Hm. destruct m as [fields|]; [|reflexivity].
  unfold Marshal_map. simpl.
  rewrite (object_round_trip fields); [reflexivity|].
  intros name v Hv. apply of_any_to_any. by apply (Hm fields name).
Qed.

Lemma decode_Marshal_Operation (op : Operation) :
  well_formed op → decode_Operation (Marshal_Operation op) = Some op.
Proof.
  intros (Hc & Ht & Hr & Hi & Ho). destruct op as [c i t o r]. simpl in *.
  unfold Marshal_Operation, decode_Operation. cbn [foldl ClientID Input Call Output ReturnTime].
  unfold store_member at 5. cbn [fst snd]. simpl field_named. cbn [store_int64].
  rewrite (ParseInt64_pretty c Hc). simpl.
  unfold store_member at 4. cbn [fst snd]. simpl field_named.
  cbn [ClientID Input Call Output ReturnTime zero].
  rewrite (store_map_Marshal_map None i eq_refl Hi). simpl.
  unfold store_member at 3. cbn [fst snd]. simpl field_named. cbn [store_int64 Call].
  rewrite (ParseInt64_pretty t Ht). simpl.
  unfold store_member at 2. cbn [fst snd]. simpl field_named.
  cbn [ClientID Input Call Output ReturnTime zero].
  rewrite (store_map_Marshal_map None o eq_refl Ho). simpl.
  unfold store_member. cbn [fst snd]. simpl field_named. cbn [store_int64 ReturnTime].
  rewrite (ParseInt64_pretty r Hr). reflexivity.
Qed.

Lemma Unmarshal_Marshal_list (ops : list Operation) :
  Forall well_formed ops → Unmarshal (Marshal ops) = Some ops.
Proof.
  intros Hall. destruct ops as [|op ops]; [reflexivity|].
  unfold Marshal, Unmarshal. apply mapM_Some.
  change (map Marshal_Operation (op :: ops)) with (Marshal_Operation <$> (op :: ops)).
  apply Forall2_fmap_l, Forall_Forall2_diag.
  eapply Forall_impl; [exact Hall|]. apply decode_Marshal_Operation.
Qed.


Lemma ParseInt64_int64 (s : string) (v : Z) : Strconv.ParseInt64 s = Some v → int64 v.
Proof.
  unfold Strconv.ParseInt64, int64.
  destruct (Strconv.signed s) as [neg body].
  destruct (Strconv.digits body 0 0) as [[n len] rest].
  destruct rest; [|discriminate].
  destruct (0 <? len)%Z; simpl; [|discriminate].
  destruct (Z.leb_spec (- 2 ^ 63) (if neg then (- n)%Z else n)); simpl; [|discriminate].
  destruct (Z.ltb_spec (if neg then (- n)%Z else n) (2 ^ 63)); simpl; [|discriminate].
  intros [= <-]. lia.
Qed.

Lemma into_map_representable (members : list (string * json)) :
  (∀ member v, member ∈ members → Json.to_any member.2 = Some v → representable v) →
  ∀ acc m,
    (∀ name v, acc !! name = Some v → representable v) →
    Json.into_map acc members = Some m →
    ∀ name v, m !! name = Some v → representable v.
Proof.
  unfold Json.into_map. induction members as [|member members IH]; intros Hmem acc m Hacc.
  - simpl. intros [= <-]. exact Hacc.
  - simpl. destruct (Json.to_any member.2) as [v0|] eqn:Hv0; simpl.
    + apply IH.
      * intros member' v Hin. apply Hmem. by right.
      * intros name v. destruct (decide (name = member.1)) as [->|Hne].
        -- rewrite lookup_insert_eq. intros [= <-]. apply (Hmem member); [left|exact Hv0].
        -- rewrite lookup_insert_ne by congruence. apply Hacc.
    + intros H. exfalso. clear -H.
      induction members as [|x members IHm]; simpl in H; [discriminate | exact (IHm H)].
Qed.

(** Whatever [json.Unmarshal] puts into an [interface{}] is representable. *)
Lemma to_any_representable : ∀ (j : json) (v : any), Json.to_any j = Some v → representable v.
Proof.
  fix IH 1. intros j v. destruct j as [|b|lit|s|items|members].
  - intros [= <-]. constructor.
  - intros [= <-]. constructor.
  - simpl. destruct (Strconv.fits_float64 lit) eqn:Hfit; [|discriminate].
    intros [= <-]. by constructor.
  - intros [= <-]. constructor.
  - assert (∀ vs, mapM Json.to_any items = Some vs → ∀ v', v' ∈ vs → representable v')
      as Hitems.
    { clear v. revert items. fix IHl 1. intros [|j items] vs; simpl.
      - intros [= <-]. inversion 1.
      - destruct (Json.to_any j) as [vj|] eqn:Hj; [simpl|discriminate].
        destruct (mapM Json.to_any items) as [vs'|] eqn:Hvs; [simpl|discriminate].
        intros [= <-] v' Hin. apply elem_of_cons in Hin as [->|Hin].
        + exact (IH j vj Hj).
        + exact (IHl items vs' Hvs v' Hin). }
    simpl. destruct (mapM Json.to_any items) as [vs|]; [|discriminate].
    intros [= <-]. constructor. by apply Hitems.
  - assert (∀ member v', member ∈ members → Json.to_any member.2 = Some v' → representable v')
      as Hmembers.
    { clear v. revert members. fix IHl 1. intros [|[name j] members] member v' Hin.
      - inversion Hin.
      - apply elem_of_cons in Hin as [->|Hin].
        + simpl. exact (IH j v').
        + exact (IHl members member v' Hin). }
    rewrite to_any_JObject.
    destruct (Json.into_map ∅ members) as [m|] eqn:Hm; [|discriminate].
    intros [= <-]. constructor.
    apply (into_map_representable members Hmembers ∅ m); [inversion 1 | exact Hm].
Qed.

Lemma store_int64_int64 current j v : int64 current → store_int64 current j = Some v → int64 v.
Proof.
  intros Hc. destruct j; simpl; try discriminate.
  - by intros [= <-].
  - intros H. exact (ParseInt64_int64 _ _ H).
Qed.

Lemma store_map_representable current j m :
  representable_map current → store_map current j = Some m → representable_map m.
Proof.
  intros Hc. destruct j as [| | | | |members]; simpl; try discriminate.
  - intros [= <-]. intros fields name v. discriminate.
  - destruct (Json.into_map (default ∅ current) members) as [m'|] eqn:Hm; [|discriminate].
    simpl. intros [= <-] fields name v [= <-].
    apply (into_map_representable members) with (acc := default ∅ current) (m := m').
    + intros member v' _. apply to_any_representable.
    + destruct current as [fields0|]; simpl; intros name0 v0 Hv;
        [exact (Hc fields0 name0 v0 eq_refl Hv) | by rewrite lookup_empty in Hv].
    + exact Hm.
Qed.

Lemma store_member_well_formed op member op' :
  well_formed op → store_member op member = Some op' → well_formed op'.
Proof.
  intros (Hc & Ht & Hr & Hi & Ho). unfold store_member, well_formed.
  destruct (field_named member.1) as [[]|].
  - destruct (store_int64 (ClientID op) member.2) as [v|] eqn:E; [|discriminate].
    intros [= <-]. simpl. eauto 10 using store_int64_int64.
  - destruct (store_map (Input op) member.2) as [v|] eqn:E; [|discriminate].
    intros [= <-]. simpl. eauto 10 using store_map_representable.
  - destruct (store_int64 (Call op) member.2) as [v|] eqn:E; [|discriminate].
    intros [= <-]. simpl. eauto 10 using store_int64_int64.
  - destruct (store_map (Output op) member.2) as [v|] eqn:E; [|discriminate].
    intros [= <-]. simpl. eauto 10 using store_map_representable.
  - destruct (store_int64 (ReturnTime op) member.2) as [v|] eqn:E; [|discriminate].
    intros [= <-]. simpl. eauto 10 using store_int64_int64.
  - intros [= <-]. auto.
Qed.

Lemma zero_well_formed : well_formed zero.
Proof.
  unfold well_formed, int64, representable_map. simpl.
  repeat split; try lia; discriminate.
Qed.

Lemma decode_Operation_well_formed j op : decode_Operation j = Some op → well_formed op.
Proof.
  destruct j as [| | | | |members]; simpl; try discriminate.
  - intros [= <-]. apply zero_well_formed.
  - assert (∀ acc, (∀ op0, acc = Some op0 → well_formed op0) →
              ∀ op', foldl (λ acc member, op0 ← acc; store_member op0 member) acc members
                     = Some op' → well_formed op') as H.
    { induction members as [|member members IH]; intros acc Hacc op'; simpl.
      - apply Hacc.
      - apply IH. intros op0. destruct acc as [op1|]; simpl; [|discriminate].
        intros Hs. eapply store_member_well_formed; eauto. }
    apply H. intros op0 [= <-]. apply zero_well_formed.
Qed.

Lemma Unmarshal_well_formed (doc : json) (ops : list Operation) :
  Unmarshal doc = Some ops → Forall well_formed ops.
Proof.
  intros Hu. destruct doc; simpl in Hu; try discriminate.
  - injection Hu as <-. constructor.
  - apply mapM_Some in Hu. clear -Hu.
    induction Hu as [|j op items ops Hj _ IH]; constructor; [|exact IH].
    by apply (decode_Operation_well_formed j).
Qed.

(** X15. Every operation [loadHistory] returns is one that can be written
    again: its three numbers are within [int64] and every number inside its
    maps is one [float64] holds. There is one operation per element of the
    array, and [null] in place of the array gives none. *)
Theorem loaded_operations_are_well_formed (w : world) (historyPath : string)
    (ops : list Operation) :
  loadHistory w historyPath = Ok ops →
  Forall well_formed ops
  ∧ ∃ doc, files w !! historyPath = Some (Json doc)
           ∧ match doc with
             | JNull => ops = []
             | JArray items => length ops = length items
             | _ => False
             end.
Proof.
  unfold loadHistory, ReadFile.
  destruct (files w !! historyPath) as [[|doc]|]; try discriminate.
  destruct (Unmarshal doc) as [ops'|] eqn:Hu; [|discriminate].
  intros [= <-]. split.
  - exact (Unmarshal_well_formed doc ops' Hu).
  - exists doc. split; [reflexivity|].
    destruct doc; simpl in Hu; try discriminate.
    + by injection Hu as <-.
    + apply mapM_Some in Hu. symmetry. by eapply Forall2_length.
Qed.

(** The file with a keyless [Get] and a [Put]. *)
Lemma loaded_operations_are_well_formed_witness :
  Forall well_formed [Examples.keyless_get_op; Examples.put_op 2 "b"].
Proof.
  apply (loaded_operations_are_well_formed
           (Examples.on_disk
              [("history.json",
                Json (JArray [Examples.keyless_get; Examples.put_record "2" "b"]))])
           "history.json").
  vm_compute. reflexivity.
Defined.


End RoundTrip.

(** * Further properties of the merger, and of a run on several files *)

Section MergeMore.
Import History Checker Spec Notions.

Lemma loadHistory_well_formed (w : world) (path : string) (ops : list Operation) :
  loadHistory w path = Ok ops → Forall well_formed ops.
Proof.
  unfold loadHistory, ReadFile.
  destruct (files w !! path) as [[|doc]|]; try discriminate.
  destruct (Unmarshal doc) as [ops'|] eqn:Hu; [|discriminate].
  intros [= <-]. exact (Unmarshal_well_formed doc ops' Hu).
Qed.

Lemma loaded_well_formed (w : world) (paths : list string) (loaded : list (list Operation)) :
  Forall2 (λ path ops, loadHistory w path = Ok ops) paths loaded →
  Forall well_formed (concat loaded).
Proof.
  induction 1 as [|path ops paths loaded Hl _ IH]; simpl; [constructor|].
  apply Forall_app. split; [by apply (loadHistory_well_formed w path) | exact IH].
Qed.

(** A successful [MergeHistories], step by step. *)
Lemma MergeHistories_success lib historyPaths w mergedPath w' :
  MergeHistories lib historyPaths w = (Some (Ok mergedPath), w') →
  ∃ first rest loaded,
    historyPaths = first :: rest
    ∧ Forall2 (λ path ops, loadHistory w path = Ok ops) historyPaths loaded
    ∧ mergedPath = Filepath.Join (Filepath.Dir first) "merged-history.json"
    ∧ (mergedPath ∉ unwritable w)
    ∧ w' = {| files := <[mergedPath := Json (Marshal (sort_Slice lib Operation less
                                                        (concat loaded)))]> (files w);
              unwritable := unwritable w; trace := trace w |}.
Proof.
  unfold MergeHistories.
  pose proof (load_all_outcome w historyPaths []) as Hload.
  destruct (load_all w historyPaths []) as [allOps|err]; [|discriminate].
  destruct Hload as (loaded & Hall & ->). simpl.
  destruct historyPaths as [|first rest]; [discriminate|].
  unfold WriteFile, store. case_bool_decide as Hw; [discriminate|].
  intros [= <- <-]. exists first, rest, loaded. auto.
Qed.

(** X16. The file [MergeHistories] writes is one [loadHistory] reads: it
    loads back as the sorted merge, a permutation of the records of the input
    files in ascending call order, with as many records as the files held
    together. *)
Theorem merged_history_loads_back (lib : Library) (historyPaths : list string)
    (w w' : world) (mergedPath : string) :
  sorts_slices lib →
  MergeHistories lib historyPaths w = (Some (Ok mergedPath), w') →
  ∃ loaded merged,
    Forall2 (λ path ops, loadHistory w path = Ok ops) historyPaths loaded
    ∧ loadHistory w' mergedPath = Ok merged
    ∧ merged ≡ₚ concat loaded
    ∧ Sorted by_call merged
    ∧ length merged = sum_list (length <$> loaded).
Proof.
  intros Hsort Hm.
  destruct (MergeHistories_success lib historyPaths w mergedPath w' Hm)
    as (first & rest & loaded & _ & Hall & _ & _ & ->).
  destruct (Hsort Operation less (concat loaded) less_strict_weak_order) as [Hperm Hsorted].
  exists loaded, (sort_Slice lib Operation less (concat loaded)).
  split; [exact Hall|]. split; [|split; [exact Hperm|split]].
  - unfold loadHistory, ReadFile. simpl. rewrite lookup_insert_eq.
    rewrite Unmarshal_Marshal_list; [reflexivity|].
    rewrite Hperm. by apply (loaded_well_formed w historyPaths).
  - by apply Sorted_by_call.
  - rewrite Hperm. clear. induction loaded as [|ops loaded IH]; simpl; [reflexivity|].
    rewrite length_app, IH. reflexivity.
Qed.

(** The two clients, merged by insertion. *)
Lemma merged_history_loads_back_witness :
  ∃ loaded merged,
    Forall2 (λ path ops, loadHistory Examples.two_clients path = Ok ops)
      ["a.json"; "b.json"] loaded
    ∧ loadHistory (MergeHistories (Examples.stub Examples.insertion_sort Ok_ [])
                     ["a.json"; "b.json"] Examples.two_clients).2 "merged-history.json"
      = Ok merged
    ∧ merged ≡ₚ concat loaded
    ∧ Sorted by_call merged
    ∧ length merged = sum_list (length <$> loaded).
Proof.
  apply (merged_history_loads_back (Examples.stub Examples.insertion_sort Ok_ [])
           ["a.json"; "b.json"] Examples.two_clients).
  - apply insertion_sort_sorts.
  - vm_compute. reflexivity.
Defined.




Lemma sorted_by_call_head (a : Operation) (l : list Operation) :
  Sorted by_call (a :: l) → ∀ b, b ∈ l → (Call a ≤ Call b)%Z.
Proof.
  intros Hs. apply Sorted_StronglySorted in Hs.
  - apply StronglySorted_inv in Hs as [_ Hall]. intros b Hb.
    rewrite Forall_forall in Hall. by apply Hall.
  - intros x y z. unfold by_call. lia.
Qed.

(** Two sorted lists with the same elements and no two equal timestamps
    are the same list. *)
Lemma sorted_unique (l1 l2 : list Operation) :
  l1 ≡ₚ l2 → NoDup (Call <$> l1) → Sorted by_call l1 → Sorted by_call l2 → l1 = l2.
Proof.
  revert l2. induction l1 as [|a l1 IH]; intros l2 Hperm Hnd Hs1 Hs2.
  - by apply Permutation_nil_l in Hperm.
  - destruct l2 as [|b l2]; [by apply Permutation_nil_r in Hperm|].
    assert (a = b) as ->.
    { assert (a ∈ b :: l2) as Ha by (rewrite <- Hperm; left).
      assert (b ∈ a :: l1) as Hb by (rewrite Hperm; left).
      apply elem_of_cons in Ha as [Ha|Ha]; [exact Ha|].
      apply elem_of_cons in Hb as [Hb|Hb]; [by symmetry|].
      pose proof (sorted_by_call_head b l2 Hs2 a Ha) as H1.
      pose proof (sorted_by_call_head a l1 Hs1 b Hb) as H2.
      exfalso. simpl in Hnd. apply NoDup_cons in Hnd as [Hnotin _].
      apply Hnotin. replace (Call a) with (Call b) by lia.
      apply list_elem_of_fmap. eauto. }
    f_equal. apply IH.
    + by apply Permutation_cons_inv in Hperm.
    + simpl in Hnd. by apply NoDup_cons in Hnd as [_ ?].
    + by apply Sorted_inv in Hs1 as [? _].
    + by apply Sorted_inv in Hs2 as [? _].
Qed.

Lemma loaded_determined (w : world) (paths : list string) (loaded : list (list Operation)) :
  Forall2 (λ path ops, loadHistory w path = Ok ops) paths loaded →
  concat loaded
  = paths ≫= (λ path, match loadHistory w path with Ok ops => ops | Err _ => [] end).
Proof.
  induction 1 as [|path ops paths loaded Hl _ IH]; simpl; [reflexivity|].
  rewrite Hl, IH. reflexivity.
Qed.

(** X18. When no two records share a call timestamp, the merged history
    does not depend on the order in which the files are given, nor on the
    sorting function: two merges of the same files write the same content. *)
Theorem merge_is_order_independent (lib lib' : Library) (paths paths' : list string)
    (w w1 w2 : world) (mergedPath mergedPath' : string) (loaded : list (list Operation)) :
  sorts_slices lib → sorts_slices lib' →
  paths ≡ₚ paths' →
  Forall2 (λ path ops, loadHistory w path = Ok ops) paths loaded →
  NoDup (Call <$> concat loaded) →
  MergeHistories lib paths w = (Some (Ok mergedPath), w1) →
  MergeHistories lib' paths' w = (Some (Ok mergedPath'), w2) →
  files w1 !! mergedPath = files w2 !! mergedPath'.
Proof.
  intros Hsort Hsort' Hpaths Hall Hnd Hm Hm'.
  destruct (MergeHistories_success lib paths w mergedPath w1 Hm)
    as (f1 & r1 & loaded1 & _ & Hall1 & _ & _ & ->).
  destruct (MergeHistories_success lib' paths' w mergedPath' w2 Hm')
    as (f2 & r2 & loaded2 & _ & Hall2 & _ & _ & ->).
  simpl. rewrite !lookup_insert_eq. do 3 f_equal.
  destruct (Hsort Operation less (concat loaded1) less_strict_weak_order) as [Hp1 Hs1].
  destruct (Hsort' Operation less (concat loaded2) less_strict_weak_order) as [Hp2 Hs2].
  assert (concat loaded1 = concat loaded) as E1
    by (rewrite (loaded_determined w paths loaded1 Hall1);
        by rewrite (loaded_determined w paths loaded Hall)).
  assert (concat loaded2 ≡ₚ concat loaded) as E2.
  { rewrite (loaded_determined w paths' loaded2 Hall2).
    rewrite (loaded_determined w paths loaded Hall). by rewrite Hpaths. }
  apply sorted_unique.
  - rewrite Hp1, Hp2, E1, E2. reflexivity.
  - rewrite Hp1, E1. exact Hnd.
  - by apply Sorted_by_call.
  - by apply Sorted_by_call.
Qed.

(** Two clients in turn, given in either order and merged with either sort. *)
Lemma merge_is_order_independent_witness :
  files (MergeHistories (Examples.stub Examples.insertion_sort Ok_ [])
           ["a.json"; "b.json"] Cases.in_turn).2 !! "merged-history.json"
  = files (MergeHistories (Examples.stub Examples.merging_sort Ok_ [])
             ["b.json"; "a.json"] Cases.in_turn).2 !! "merged-history.json".
Proof.
  apply (merge_is_order_independent
           (Examples.stub Examples.insertion_sort Ok_ [])
           (Examples.stub Examples.merging_sort Ok_ [])
           ["a.json"; "b.json"] ["b.json"; "a.json"] Cases.in_turn _ _ _ _
           [[Examples.early_op]; [Examples.put_op 1 "a"]]).
  - apply insertion_sort_sorts.
  - apply merging_sort_sorts.
  - apply perm_swap.
  - repeat constructor.
  - apply (bool_decide_unpack _). vm_compute. exact I.
  - vm_compute. reflexivity.
  - vm_compute. reflexivity.
Defined.

(** X19. [MergeHistories] stops at the first file that fails to load: the
    error names that file and carries its cause, the files after it play no
    part, and nothing is written. *)
Theorem merge_stops_at_first_failure (lib : Library) (before after : list string)
    (path : string) (cause : error) (w : world) :
  Forall (λ p, ∃ ops, loadHistory w p = Ok ops) before →
  loadHistory w path = Err cause →
  MergeHistories lib (before ++ path :: after) w
  = (Some (Err (Errorf ("error loading " +:+ path +:+ ": ") cause)), w).
Proof.
  intros Hbefore Hl. unfold MergeHistories.
  assert (∀ allOps, load_all w (before ++ path :: after) allOps
                    = Err (Errorf ("error loading " +:+ path +:+ ": ") cause)) as ->;
    [|reflexivity].
  induction Hbefore as [|p before [ops Hp] _ IH]; intros allOps; simpl.
  - rewrite Hl. reflexivity.
  - rewrite Hp. apply IH.
Qed.

(** A file that loads, one that is missing, one that is never looked at. *)
Lemma merge_stops_at_first_failure_witness :
  MergeHistories (Examples.stub Examples.insertion_sort Ok_ [])
    (["a.json"] ++ "missing.json" :: ["b.json"]) Examples.two_clients
  = (Some (Err (Errorf ("error loading " +:+ "missing.json" +:+ ": ")
                  (Errorf "error reading file: " (ReadFileError "missing.json")))),
     Examples.two_clients).
Proof.
  apply (merge_stops_at_first_failure (Examples.stub Examples.insertion_sort Ok_ [])
           ["a.json"] ["b.json"] "missing.json").
  - constructor; [|constructor]. eexists. vm_compute. reflexivity.
  - reflexivity.
Defined.

End MergeMore.
(** ** The description functions *)
Section Descriptions.
Import KV Spec Notions Describe.

Lemma describeOperation_defined (input output : iface) :
  is_Some (describeOperation input output)
  ↔ is_Some (as_map input) ∧ is_Some (as_map output).
Proof.
  unfold describeOperation.
  destruct (as_map input) as [inp|]; simpl.
  - destruct (as_map output) as [out|]; simpl.
    + split; eauto.
    + split; [intros [? [=]]|intros [_ [? [=]]]].
  - split; [intros [? [=]]|intros [[? [=]] _]].
Qed.

Lemma Step_defined (st : state) (input output : iface) :
  is_Some (Step (IState st) input output)
  ↔ is_Some (as_map input) ∧ is_Some (as_map output).
Proof.
  unfold Step. simpl.
  destruct (as_map input) as [inp|]; simpl.
  - destruct (as_map output) as [out|]; simpl.
    + split; eauto.
    + split; [intros [? [=]]|intros [_ [? [=]]]].
  - split; [intros [? [=]]|intros [[? [=]] _]].
Qed.

(** X20. [describeOperation] returns on exactly the inputs and outputs on
    which [Step] does, and so on every operation
    [convertToPorcupineOperations] makes, whatever the record. *)
Theorem describeOperation_defined_with_Step (st : state) (input output : iface) :
  (is_Some (describeOperation input output) ↔ is_Some (Step (IState st) input output))
  ∧ ∀ ops, Forall (λ op, is_Some (describeOperation (Input op) (Output op)))
             (History.convertToPorcupineOperations ops).
Proof.
  split.
  - rewrite describeOperation_defined, Step_defined. reflexivity.
  - intros ops. unfold History.convertToPorcupineOperations.
    apply Forall_fmap, Forall_forall. intros hop _. simpl.
    apply describeOperation_defined. rewrite !as_map_to_iface. eauto.
Qed.




(** X22. Every state [Step] returns can be described, and a description
    of a state is [{}] exactly when the state binds nothing; a state of at
    most one binding has one description only. *)
Theorem describeState_of_a_state (state input output : iface) (verdict : bool)
    (state' : iface) :
  Step state input output = Some (verdict, state') →
  ∃ st, state' = IState st
    ∧ (∃ s, describeState state' s)
    ∧ (∀ s, describeState state' s → (s = "{}" ↔ st = ∅))
    ∧ ((size st ≤ 1)%nat → ∀ s s', describeState state' s → describeState state' s' → s = s').
Proof.
  intros HS.
  assert (∃ st, state' = IState st) as [st ->].
  { unfold Step in HS.
    destruct (as_state state); simpl in HS; [|discriminate].
    destruct (as_map input); simpl in HS; [|discriminate].
    destruct (as_map output); simpl in HS; [|discriminate].
    injection HS as _ <-. unfold prod_map. simpl. eauto. }
  exists st. split; [reflexivity|]. split; [|split].
  - unfold describeState. simpl. destruct (decide (size st = 0%nat)) as [Hz|Hz].
    + exists "{}", st. split; [reflexivity|]. rewrite decide_True by exact Hz. reflexivity.
    + eexists. exists st. split; [reflexivity|]. rewrite decide_False by exact Hz.
      exists (map_to_list st). split; reflexivity.
  - intros s (st0 & [= <-] & Hs). destruct (decide (size st = 0%nat)) as [Hz|Hz].
    + apply map_size_empty_iff in Hz. subst s. split; auto.
    + destruct Hs as (parts & Hperm & ->). split.
      * intros H. exfalso. destruct parts as [|[k v] parts].
        -- apply Permutation_nil_l in Hperm. symmetry in Hperm.
           apply map_to_list_empty_iff in Hperm.
           apply Hz. rewrite Hperm. apply map_size_empty.
        -- simpl in H. destruct parts; simpl in H; discriminate.
      * intros ->. destruct Hz. apply map_size_empty.
  - intros Hsize s s' (st0 & [= <-] & Hs) (st1 & [= <-] & Hs').
    destruct (decide (size st = 0%nat)) as [Hz|Hz]; [congruence|].
    destruct Hs as (parts & Hperm & ->), Hs' as (parts' & Hperm' & ->).
    assert (length (map_to_list st) = 1%nat) as Hlen
      by (rewrite length_map_to_list; lia).
    destruct (map_to_list st) as [|kv [|? ?]]; try discriminate.
    apply Permutation_singleton_r in Hperm, Hperm'. subst. reflexivity.
Qed.

(** The state a [Put] leaves in the empty one. *)
Lemma describeState_of_a_state_witness :
  ∃ st, IState {[ "x" := "1" ]} = IState st
    ∧ (∃ s, describeState (IState {[ "x" := "1" ]}) s)
    ∧ (∀ s, describeState (IState {[ "x" := "1" ]}) s → (s = "{}" ↔ st = ∅))
    ∧ ((size st ≤ 1)%nat → ∀ s s', describeState (IState {[ "x" := "1" ]}) s
                                   → describeState (IState {[ "x" := "1" ]}) s' → s = s').
Proof.
  apply (describeState_of_a_state Init
           (IJson (Object {[ "type" := Str "Put"; "key" := Str "x"; "value" := Str "1" ]}))
           INilMap true).
  reflexivity.
Defined.

End Descriptions.
